(** * PixivPixie: the multi-threaded spider [PixieQueen] (pixiv_pixie/queen.py)

    A shallow embedding of [FunctionCall] and of the body of
    [PixieQueen.fetch_and_download], and the properties of its retry loop,
    its query pipeline and its download fan-out. *)

From Stdlib Require Import ZArith String List Lia DecimalString.
From stdpp Require Import gmap strings list.

Local Open Scope string_scope.
Local Open Scope list_scope.

(** ** Python values *)

(** The Python objects that travel through arguments: [None], integers,
    strings, an illust (the fetched item, opaque) and dictionaries (in
    insertion order). *)
#[warnings="-register-all"]
Inductive value (Item : Type) :=
| VNone
| VInt (z : Z)
| VStr (s : string)
| VIllust (i : Item)
| VDict (d : list (string * value Item)).

Arguments VNone {Item}.
Arguments VInt {Item} z.
Arguments VStr {Item} s.
Arguments VIllust {Item} i.
Arguments VDict {Item} d.

(** [v is None] *)
Definition is_None {Item} (v : value Item) : bool :=
  match v with VNone => true | _ => false end.

(** A callable, as far as this module looks at it: its [__name__] attribute
    when it has one, and its [repr]. What calling it does is given by the
    environment, see [env] below. *)
Record callable := Callable {
  fn_name : option string;
  fn_repr : string
}.

(** ** class FunctionCall *)

Module FunctionCall.

Record t (Item : Type) := Build {
  fn : callable;
  args : list (value Item);
  kwargs : list (string * value Item)
}.

Arguments Build {Item} fn args kwargs.
Arguments fn {Item} _.
Arguments args {Item} _.
Arguments kwargs {Item} _.

(** [', '.join(parts)] *)
Definition join (parts : list string) : string := String.concat ", " parts.

(** A Python string is truthy when it is not empty. *)
Definition truthy (s : string) : bool :=
  match s with EmptyString => false | _ => true end.

(** [fn.__name__] when [hasattr(fn, '__name__')], else [repr(fn)]. *)
Definition function_name (f : callable) : string :=
  match fn_name f with
  | Some n => n
  | None => fn_repr f
  end.

(** ['{}={}'.format(k, repr(v))]; [repr] is Python's builtin on values. *)
Definition kwarg_str {Item} (repr : value Item -> string)
  (kv : string * value Item) : string :=
  fst kv ++ "=" ++ repr (snd kv).

Definition parameter_str {Item} (repr : value Item -> string) (c : t Item) : string :=
  let args_str := join (map repr (args c)) in
  let kwargs_str := join (map (kwarg_str repr) (kwargs c)) in
  if truthy args_str && truthy kwargs_str then args_str ++ ", " ++ kwargs_str
  else if truthy args_str then args_str
  else if truthy kwargs_str then kwargs_str
  else "".

(** [FunctionCall.__str__] *)
Definition __str__ {Item} (repr : value Item -> string) (c : t Item) : string :=
  function_name (fn c) ++ "(" ++ parameter_str repr c ++ ")".

(** [FunctionCall.__call__]: [self.fn( *self.args, **self.kwargs)], where
    [call_fn] says what calling a callable on arguments does. *)
Definition __call__ {Item R}
  (call_fn : callable -> list (value Item) -> list (string * value Item) -> R)
  (c : t Item) : R :=
  call_fn (fn c) (args c) (kwargs c).

(** The rendering as the specification words it: the name, then the
    arguments in parentheses, positional ones first, all joined with
    [', ']; no parenthesised list at all when there is no argument. *)
Definition describe_spec {Item} (repr : value Item -> string) (c : t Item) : string :=
  match args c, kwargs c with
  | [], [] => function_name (fn c)
  | _, _ =>
      function_name (fn c) ++ "("
        ++ join (map repr (args c) ++ map (kwarg_str repr) (kwargs c)) ++ ")"
  end.

End FunctionCall.

(** ** Exceptions, results and lazy sequences *)

(** An instance of [Exception]: what it is, and the [fetch_call] attribute
    once it has been set on it. *)
Record exn (Item : Type) := Exn {
  exn_what : string;
  fetch_call : option (FunctionCall.t Item)
}.

Arguments Exn {Item} exn_what fetch_call.
Arguments exn_what {Item} _.
Arguments fetch_call {Item} _.

(** [e.fetch_call = fetch] *)
Definition set_fetch_call {Item} (e : exn Item) (c : FunctionCall.t Item) : exn Item :=
  {| exn_what := exn_what e; fetch_call := Some c |}.

(** A call returns a value or raises. *)
Inductive res (Item A : Type) :=
| Ok (a : A)
| Raise (e : exn Item).

Arguments Ok {Item A} a.
Arguments Raise {Item A} e.

Definition res_bind {Item A B} (m : res Item A) (f : A -> res Item B) : res Item B :=
  match m with
  | Ok a => f a
  | Raise e => Raise e
  end.

(** What iterating a lazy, finite sequence does: it yields elements and
    then stops, or raises on the way. *)
Inductive stream (Item A : Type) :=
| SEnd
| SYield (a : A) (rest : stream Item A)
| SRaise (e : exn Item).

Arguments SEnd {Item A}.
Arguments SYield {Item A} a rest.
Arguments SRaise {Item A} e.

(** The elements of a sequence that ends without raising. *)
Fixpoint stream_items {Item A} (s : stream Item A) : option (list A) :=
  match s with
  | SEnd => Some []
  | SYield a rest =>
      match stream_items rest with
      | Some l => Some (a :: l)
      | None => None
      end
  | SRaise _ => None
  end.

(** The elements a sequence yields before it stops or raises. *)
Fixpoint stream_prefix {Item A} (s : stream Item A) : list A :=
  match s with
  | SYield a rest => a :: stream_prefix rest
  | _ => []
  end.

Fixpoint stream_of_list {Item A} (l : list A) : stream Item A :=
  match l with
  | [] => SEnd
  | a :: l' => SYield a (stream_of_list l')
  end.

(** ** The QuerySet interface

    [fetch_func] returns a QuerySet; queen.py calls its methods [order_by],
    [limit], [filter], [exclude] and [enumerate]. Each call may raise. *)
Class QuerySet (Item Q Key QS : Type) := {
  qs_order_by : list Key -> QS -> res Item QS;
  qs_limit : Z -> QS -> res Item QS;
  qs_filter : Q -> QS -> res Item QS;
  qs_exclude : Q -> QS -> res Item QS;
  qs_enumerate : nat -> QS -> stream Item (nat * Item)
}.

(** ** The state the body of [fetch_and_download] runs in *)

(** A [Future] is identified by the position of its job in the executor. *)
Abbreviation future := nat.

(** A dict object is identified by its address. *)
Abbreviation loc := nat.

(** A job handed to the executor: [download] called with [params] as keyword arguments. *)
Inductive job (Item : Type) :=
| Download (params : gmap string (value Item)).

Arguments Download {Item} params.

Record state (Item : Type) := State {
  (** how many times the fetch function has been invoked *)
  fetch_calls : nat;
  (** how many times [ThreadPoolExecutor.submit] has been called *)
  submit_calls : nat;
  (** the jobs the executor accepted, oldest first *)
  pool : list (job Item);
  (** the dict objects, by address *)
  heap : list (gmap string (value Item));
  (** what [safe_callback] logged *)
  log : list (exn Item);
  (** the list object bound to the local variable [futures] *)
  futures : list (Item * future)
}.

Arguments State {Item}.
Arguments fetch_calls {Item} _.
Arguments submit_calls {Item} _.
Arguments pool {Item} _.
Arguments heap {Item} _.
Arguments log {Item} _.
Arguments futures {Item} _.

(** What the collaborators do: the outcome of the [n]-th invocation
    (counted from 0) of a callable on given arguments, and whether the
    [n]-th call of [ThreadPoolExecutor.submit] raises (it does after
    [shutdown]). *)
Record env (Item QS : Type) := Env {
  call_result : callable -> list (value Item) -> list (string * value Item)
                -> nat -> res Item QS;
  submit_fault : nat -> option (exn Item)
}.

Arguments Env {Item QS}.
Arguments call_result {Item QS} _.
Arguments submit_fault {Item QS} _.

(** A submission observer gets the future and the dict [kwargs_copy]; it
    may change that dict, and returns or raises. An observer that changes
    in place an object the dict holds, or that reaches for the executor,
    is outside this model. *)
Definition callback (Item : Type) :=
  future -> gmap string (value Item)
  -> gmap string (value Item) * option (exn Item).

(** The parameters of [fetch_and_download]. *)
Record config (Item Q Key : Type) := Config {
  fetch_func : callable;
  args : option (list (value Item));
  kwargs : option (list (string * value Item));
  max_tries : option Z;
  submit_download_callback : option (callback Item);
  order_by : option (list Key);
  limit_before : option Z;
  filter_q : option Q;
  exclude_q : option Q;
  limit_after : option Z;
  download_kwargs : gmap string (value Item)
}.

Arguments Config {Item Q Key}.
Arguments fetch_func {Item Q Key} _.
Arguments args {Item Q Key} _.
Arguments kwargs {Item Q Key} _.
Arguments max_tries {Item Q Key} _.
Arguments submit_download_callback {Item Q Key} _.
Arguments order_by {Item Q Key} _.
Arguments limit_before {Item Q Key} _.
Arguments filter_q {Item Q Key} _.
Arguments exclude_q {Item Q Key} _.
Arguments limit_after {Item Q Key} _.
Arguments download_kwargs {Item Q Key} _.

(** ** Computations: state passing with exceptions *)

Section Body.
Context {Item Q Key QS : Type} `{!QuerySet Item Q Key QS}.

Abbreviation dict := (gmap string (value Item)).

(** A computation changes the state and returns or raises; what it did
    to the state before raising stays done. *)
Definition M (A : Type) : Type := state Item -> res Item A * state Item.

Definition ret {A} (a : A) : M A := fun st => (Ok a, st).

Definition raise {A} (e : exn Item) : M A := fun st => (Raise e, st).

Definition bind {A B} (m : M A) (f : A -> M B) : M B :=
  fun st =>
    match m st with
    | (Ok a, st') => f a st'
    | (Raise e, st') => (Raise e, st')
    end.

Definition lift {A} (r : res Item A) : M A := fun st => (r, st).

Notation "x <- m ;; k" := (bind m (fun x => k))
  (at level 100, m at next level, right associativity).
Notation "m ;;; k" := (bind m (fun _ => k))
  (at level 100, right associativity).

(** *** The primitive steps *)

Definition set_heap (h : list dict) (st : state Item) : state Item :=
  State (fetch_calls st) (submit_calls st) (pool st) h (log st) (futures st).

Definition set_futures (l : list (Item * future)) (st : state Item) : state Item :=
  State (fetch_calls st) (submit_calls st) (pool st) (heap st) (log st) l.

Definition set_log (l : list (exn Item)) (st : state Item) : state Item :=
  State (fetch_calls st) (submit_calls st) (pool st) (heap st) l (futures st).

(** A new dict object with the given contents. *)
Definition dict_new (d : dict) : M loc :=
  fun st => (Ok (length (heap st)), set_heap (heap st ++ [d]) st).

(** The contents of a dict object (an address not in use reads as empty). *)
Definition dict_load (l : loc) : M dict :=
  fun st => (Ok (default ∅ (heap st !! l)), st).

Definition dict_store (l : loc) (d : dict) : M unit :=
  fun st => (Ok tt, set_heap (<[l := d]> (heap st)) st).

(** [d.copy()]: a new dict with the same keys and values. The copy is
    shallow; the values here are immutable, so that sharing them does not
    show. *)
Definition dict_copy (l : loc) : M loc :=
  d <- dict_load l ;; dict_new d.

(** [d[k] = v] *)
Definition dict_setitem (l : loc) (k : string) (v : value Item) : M unit :=
  d <- dict_load l ;; dict_store l (<[k := v]> d).

(** [d.get(k)] *)
Definition dict_get (l : loc) (k : string) : M (value Item) :=
  d <- dict_load l ;; ret (default VNone (d !! k)).

(** [futures.append(x)] *)
Definition futures_append (x : Item * future) : M unit :=
  fun st => (Ok tt, set_futures (futures st ++ [x]) st).

(** Calling the external callable [f]: the environment tells the outcome
    of this invocation. *)
Definition invoke (E : env Item QS) (f : callable) (a : list (value Item))
  (k : list (string * value Item)) : M QS :=
  fun st =>
    (call_result E f a k (fetch_calls st),
     State (S (fetch_calls st)) (submit_calls st) (pool st) (heap st) (log st)
       (futures st)).

(** [PixieQueen.submit]: [ThreadPoolExecutor.submit], which raises when the
    executor does not take the job and otherwise queues it and returns its
    future. *)
Definition submit (E : env Item QS) (j : job Item) : M future :=
  fun st =>
    match submit_fault E (submit_calls st) with
    | Some e =>
        (Raise e,
         State (fetch_calls st) (S (submit_calls st)) (pool st) (heap st)
           (log st) (futures st))
    | None =>
        (Ok (length (pool st)),
         State (fetch_calls st) (S (submit_calls st)) (pool st ++ [j]) (heap st)
           (log st) (futures st))
    end.

(** [PixieQueen.download], decorated with [_submit]: the call itself only
    submits the job. *)
Definition download (E : env Item QS) (params : dict) : M future :=
  submit E (Download params).

(** Modelled from the spec: [safe_callback] of pixiv_pixie/utils.py, which
    is not part of the sources at hand. The wrapped observer is called; any
    failure it raises is caught and logged, never propagated (the docstring
    of [fetch_and_download] says the same: logged and ignored). *)
Definition safe_callback (cb : callback Item) (f : future) (l : loc) : M unit :=
  fun st =>
    let (d', r) := cb f (default ∅ (heap st !! l)) in
    let st' := set_heap (<[l := d']> (heap st)) st in
    match r with
    | None => (Ok tt, st')
    | Some e => (Ok tt, set_log (log st' ++ [e]) st')
    end.

(** *** fetch_and_download *)

(** [if param is not None: qs = qs.op(param)] *)
Definition stage {A} (param : option A) (op : A -> QS -> res Item QS) (qs : QS)
  : res Item QS :=
  match param with
  | Some a => op a qs
  | None => Ok qs
  end.

(** [for x in s: body(x)] *)
Fixpoint for_each {A} (s : stream Item A) (body : A -> M unit) : M unit :=
  match s with
  | SEnd => ret tt
  | SYield a rest => body a ;;; for_each rest body
  | SRaise e => raise e
  end.

(** The body of the [for order, illust in qs.enumerate(start=1)] loop. *)
Definition loop_body (E : env Item QS) (download_kwargs : loc)
  (submit_download_callback : option (future -> loc -> M unit))
  (oi : nat * Item) : M unit :=
  let order := fst oi in
  let illust := snd oi in
  kwargs_copy <- dict_copy download_kwargs ;;
  dict_setitem kwargs_copy "illust" (VIllust illust) ;;;
  hint <- dict_get kwargs_copy "addition_naming_info" ;;
  (if is_None hint
   then dict_setitem kwargs_copy "addition_naming_info"
          (VDict [("order", VInt (Z.of_nat order))])
   else ret tt) ;;;
  params <- dict_load kwargs_copy ;;
  future <- download E params ;;
  futures_append (illust, future) ;;;
  match submit_download_callback with
  | Some cb => cb future kwargs_copy
  | None => ret tt
  end.

(** One pass through the [try] block, up to (not including) [return]. *)
Definition attempt (E : env Item QS) (c : config Item Q Key)
  (fetch : FunctionCall.t Item) (download_kwargs : loc)
  (submit_download_callback : option (future -> loc -> M unit)) : M unit :=
  qs <- FunctionCall.__call__ (invoke E) fetch ;;
  qs <- lift (stage (order_by c) qs_order_by qs) ;;
  qs <- lift (stage (limit_before c) qs_limit qs) ;;
  qs <- lift (stage (filter_q c) qs_filter qs) ;;
  qs <- lift (stage (exclude_q c) qs_exclude qs) ;;
  qs <- lift (stage (limit_after c) qs_limit qs) ;;
  for_each (qs_enumerate 1 qs) (loop_body E download_kwargs submit_download_callback).

(** [max_tries is None or tries < max_tries] *)
Definition may_retry (max_tries : option Z) (tries : nat) : bool :=
  match max_tries with
  | None => true
  | Some m => (Z.of_nat tries <? m)%Z
  end.

(** [for tries in count(start=1): try: ... except Exception as e: ...].
    The loop has no bound of its own when [max_tries] is [None]; [fuel]
    bounds the number of passes, and [None] is returned when it runs out.
    What is raised and is no instance of [Exception] (a keyboard
    interrupt, say) is not caught, and is left out of the model. *)
Fixpoint retry_loop (E : env Item QS) (c : config Item Q Key)
  (fetch : FunctionCall.t Item) (download_kwargs : loc)
  (submit_download_callback : option (future -> loc -> M unit))
  (fuel : nat) (tries : nat) (st : state Item)
  : option (res Item (list (Item * future)) * state Item) :=
  match fuel with
  | O => None
  | S fuel' =>
      match attempt E c fetch download_kwargs submit_download_callback st with
      | (Ok _, st') => Some (Ok (futures st'), st')
      | (Raise e, st') =>
          if may_retry (max_tries c) tries
          then retry_loop E c fetch download_kwargs submit_download_callback
                 fuel' (S tries) st'
          else Some (Raise (set_fetch_call e fetch), st')
      end
  end.

(** The [FunctionCall] the body builds from its parameters. *)
Definition fetch_of (c : config Item Q Key) : FunctionCall.t Item :=
  FunctionCall.Build (fetch_func c) (default [] (args c)) (default [] (kwargs c)).

(** The body of [PixieQueen.fetch_and_download]. The method is decorated
    with [_submit]: calling it hands this body to the executor, and the
    outcome below is what the returned future resolves to. The keyword
    arguments collected in [download_kwargs] are a dict object of their
    own. *)
Definition fetch_and_download (E : env Item QS) (c : config Item Q Key)
  (fuel : nat) (st : state Item)
  : option (res Item (list (Item * future)) * state Item) :=
  let (r, st) := dict_new (download_kwargs c) st in
  let dk := match r with Ok l => l | Raise _ => 0 end in
  let cb := option_map safe_callback (submit_download_callback c) in
  let fetch := fetch_of c in
  let st := set_futures [] st in
  retry_loop E c fetch dk cb fuel 1 st.

(** *** Summaries of the body, used to state its properties *)

(** The five optional stages between the fetch and the enumeration. *)
Definition pipeline (c : config Item Q Key) (qs : QS) : res Item QS :=
  res_bind (stage (order_by c) qs_order_by qs) (fun qs =>
  res_bind (stage (limit_before c) qs_limit qs) (fun qs =>
  res_bind (stage (filter_q c) qs_filter qs) (fun qs =>
  res_bind (stage (exclude_q c) qs_exclude qs) (fun qs =>
  stage (limit_after c) qs_limit qs)))).

(** What the [for] loop of a pass iterates over when the fetch returned
    [qs]; a stage that raises does so before the first iteration. *)
Definition selected (c : config Item Q Key) (qs : QS) : stream Item (nat * Item) :=
  match pipeline c qs with
  | Ok qs' => qs_enumerate 1 qs'
  | Raise e => SRaise e
  end.

(** Whether the caller's keyword arguments carry a naming hint. *)
Definition naming_hint_supplied (d : dict) : bool :=
  match d !! "addition_naming_info" with
  | Some v => negb (is_None v)
  | None => false
  end.

(** The download parameters as the specification words them: the caller's
    keyword arguments with the item injected, and with the naming hint
    [{order: <order>}] injected only when the caller supplied none. *)
Definition download_params (d : dict) (oi : nat * Item) : dict :=
  let d1 := <["illust" := VIllust (snd oi)]> d in
  if naming_hint_supplied d then d1
  else <["addition_naming_info" := VDict [("order", VInt (Z.of_nat (fst oi)))]]> d1.

(** The pairs a pass appends for the items [l] when the executor holds
    [n] jobs before the first of them. *)
Definition pairs_from (n : nat) (l : list (nat * Item)) : list (Item * future) :=
  imap (fun i oi => (snd oi, n + i)) l.

(** The log entries the observer [cb] causes through [safe_callback] when
    it is called on future [f] with the dict contents [d], and what it
    leaves in the dict. *)
Definition after_callback (cb : option (callback Item)) (f : future) (d : dict)
  : dict * list (exn Item) :=
  match cb with
  | None => (d, [])
  | Some g =>
      match g f d with
      | (d', Some e) => (d', [e])
      | (d', None) => (d', [])
      end
  end.

(** What a pass over the items [l] logs, the executor holding [n] jobs
    before and [d] being the caller's keyword arguments. *)
Definition observer_log (cb : option (callback Item)) (d : dict) (n : nat)
  (l : list (nat * Item)) : list (exn Item) :=
  concat (imap (fun i oi => snd (after_callback cb (n + i) (download_params d oi))) l).

(** The state right after the fetch function has been invoked. *)
Definition called (st : state Item) : state Item :=
  State (S (fetch_calls st)) (submit_calls st) (pool st) (heap st) (log st)
    (futures st).

(** The state in which the retry loop is entered: the keyword arguments
    are a new dict object, and [futures] is bound to a new empty list. *)
Definition start (c : config Item Q Key) (st : state Item) : state Item :=
  State (fetch_calls st) (submit_calls st) (pool st)
    (heap st ++ [download_kwargs c]) (log st) [].

(** From [st] to [st'] the jobs and pairs for the items [its] were added,
    in step, and nothing else was lost: the executor, the list [futures],
    the heap and the log only grew at their ends. *)
Definition grows (dk : loc) (its : list (nat * Item)) (st st' : state Item) : Prop :=
  pool st' = pool st
    ++ map (fun oi => Download (download_params (default ∅ (heap st !! dk)) oi)) its
  /\ futures st' = futures st ++ pairs_from (length (pool st)) its
  /\ (exists hs, heap st' = heap st ++ hs)
  /\ (exists ls, log st' = log st ++ ls)
  /\ fetch_calls st <= fetch_calls st'
  /\ submit_calls st <= submit_calls st'.

(** One pass through the [try] block in a call with the parameters [c]
    whose keyword arguments are the dict object at [dk]. *)
Definition pass (E : env Item QS) (c : config Item Q Key) (dk : loc) : M unit :=
  attempt E c (fetch_of c) dk
    (option_map safe_callback (submit_download_callback c)).

(** The retry loop of that call. *)
Definition retry (E : env Item QS) (c : config Item Q Key) (dk : loc)
  (fuel tries : nat) (st : state Item)
  : option (res Item (list (Item * future)) * state Item) :=
  retry_loop E c (fetch_of c) dk
    (option_map safe_callback (submit_download_callback c)) fuel tries st.

(** The same parameters with another [max_tries]. *)
Definition with_max_tries (m : option Z) (c : config Item Q Key) : config Item Q Key :=
  Config (fetch_func c) (args c) (kwargs c) m (submit_download_callback c)
    (order_by c) (limit_before c) (filter_q c) (exclude_q c) (limit_after c)
    (download_kwargs c).

(** The state after [k] consecutive passes of [a] that all raise, if they
    all do. *)
Fixpoint after_failures (a : M unit) (k : nat) (st : state Item)
  : option (state Item) :=
  match k with
  | O => Some st
  | S k' =>
      match a st with
      | (Raise _, st') => after_failures a k' st'
      | (Ok _, _) => None
      end
  end.

End Body.

(** ** A QuerySet read lazily from its source *)

Module LazyQS.
Section LazyQS.
Context {Item : Type}.

(** Modelled from the spec: the QuerySet class, which is not part of the
    sources at hand, as section 4.3 of the specification describes it: a
    lazy view of the fetched sequence, which yields items and may fail on
    the way. A predicate is a boolean function on items, a sort key an
    integer-valued selector; [key_le] compares by the keys in turn. *)
Fixpoint key_le (keys : list (Item -> Z)) (a b : Item) : bool :=
  match keys with
  | [] => true
  | k :: ks =>
      if (k a <? k b)%Z then true
      else if (k b <? k a)%Z then false
      else key_le ks a b
  end.

(** Modelled from the spec: one step of the stable sort of [orderBy], the
    insertion of [a] before the first item that is not below it. *)
Fixpoint insert_by (keys : list (Item -> Z)) (a : Item) (l : list Item) : list Item :=
  match l with
  | [] => [a]
  | b :: l' => if key_le keys a b then a :: l else b :: insert_by keys a l'
  end.

(** Modelled from the spec: the failure a lazily read source ends in, if
    it does. *)
Fixpoint failure (s : stream Item Item) : option (exn Item) :=
  match s with
  | SEnd => None
  | SYield _ rest => failure rest
  | SRaise e => Some e
  end.

(** Modelled from the spec: [orderBy(keys)], a view sorted by the key
    selectors, ties keeping the source order. Sorting needs the whole
    source: a source that fails gives a view that fails. *)
Definition order_by (keys : list (Item -> Z)) (s : stream Item Item)
  : res Item (stream Item Item) :=
  Ok (match failure s with
      | Some e => SRaise e
      | None => stream_of_list (fold_right (insert_by keys) [] (stream_prefix s))
      end).

(** Modelled from the spec: the first [n] items of a view, read no
    further than that. *)
Fixpoint take (n : nat) (s : stream Item Item) : stream Item Item :=
  match n, s with
  | O, _ => SEnd
  | S n', SYield a rest => SYield a (take n' rest)
  | S _, SEnd => SEnd
  | S _, SRaise e => SRaise e
  end.

(** Modelled from the spec: [limit(n)], at most the first [n] items of
    the view; a negative [n] is refused with InvalidArgument. *)
Definition limit (n : Z) (s : stream Item Item) : res Item (stream Item Item) :=
  if (n <? 0)%Z then Raise (Exn "InvalidArgument" None)
  else Ok (take (Z.to_nat n) s).

(** Modelled from the spec: the items of a view of which [p] holds. *)
Fixpoint keep (p : Item -> bool) (s : stream Item Item) : stream Item Item :=
  match s with
  | SEnd => SEnd
  | SYield a rest => if p a then SYield a (keep p rest) else keep p rest
  | SRaise e => SRaise e
  end.

(** Modelled from the spec: [filter(predicate)], the items for which the
    predicate holds. *)
Definition filter (p : Item -> bool) (s : stream Item Item)
  : res Item (stream Item Item) :=
  Ok (keep p s).

(** Modelled from the spec: [exclude(predicate)], the items for which the
    predicate does not hold. *)
Definition exclude (p : Item -> bool) (s : stream Item Item)
  : res Item (stream Item Item) :=
  Ok (keep (fun x => negb (p x)) s).

(** Modelled from the spec: [enumerate(start)], the items of the view
    paired with [start], [start + 1], and so on. *)
Fixpoint enumerate (start : nat) (s : stream Item Item) : stream Item (nat * Item) :=
  match s with
  | SEnd => SEnd
  | SYield a rest => SYield (start, a) (enumerate (S start) rest)
  | SRaise e => SRaise e
  end.

#[export] Instance lazy_QuerySet
  : QuerySet Item (Item -> bool) (Item -> Z) (stream Item Item) :=
  {| qs_order_by := order_by;
     qs_limit := limit;
     qs_filter := filter;
     qs_exclude := exclude;
     qs_enumerate := enumerate |}.

End LazyQS.
End LazyQS.

Export (hints) LazyQS.

(** ** The stages in their fixed order *)

(** The view the loop runs over as the specification words it, on that
    QuerySet: orderBy, then limit(before), then filter or else exclude,
    then limit(after), then enumerate from 1; a stage whose parameter is
    not given is left out. *)
Definition in_fixed_order {Item : Type}
  (c : config Item (Item -> bool) (Item -> Z)) (s : stream Item Item)
  : stream Item (nat * Item) :=
  let ordered :=
    match order_by c with
    | Some keys =>
        match LazyQS.failure s with
        | Some e => SRaise e
        | None =>
            stream_of_list
              (fold_right (LazyQS.insert_by keys) [] (stream_prefix s))
        end
    | None => s
    end in
  let limited_before :=
    match limit_before c with
    | Some n => LazyQS.take (Z.to_nat n) ordered
    | None => ordered
    end in
  let filtered :=
    match filter_q c, exclude_q c with
    | Some p, _ => LazyQS.keep p limited_before
    | None, Some q => LazyQS.keep (fun x => negb (q x)) limited_before
    | None, None => limited_before
    end in
  let limited_after :=
    match limit_after c with
    | Some n => LazyQS.take (Z.to_nat n) filtered
    | None => filtered
    end in
  LazyQS.enumerate 1 limited_after.

(** ** Concrete runs, with strings for illusts *)

Definition ex_fetch : callable := Callable (Some "fetch") "<function fetch>".

(** [repr] on the values the examples use: integers in decimal, simple
    strings in single quotes. *)
Definition ex_repr (v : value string) : string :=
  match v with
  | VNone => "None"
  | VInt z => DecimalString.NilZero.string_of_int (Z.to_int z)
  | VStr s => "'" ++ s ++ "'"
  | VIllust i => "<PixivIllust " ++ i ++ ">"
  | VDict _ => "{...}"
  end.

Definition ex_state : state string := State 0 0 [] [] [] [].

(** A fetch function that raises on its first [k] invocations and returns
    [items] afterwards; the executor takes every job. *)
Definition ex_flaky (k : nat) (items : list string)
  : env string (stream string string) :=
  Env (fun _ _ _ n =>
         if (n <? k)%nat then Raise (Exn "ConnectionError" None)
         else Ok (stream_of_list items))
      (fun _ => None).

(** A fetch function whose first result breaks after its first item [A]
    and whose later results are [A, B]; the executor takes every job. *)
Definition ex_breaking : env string (stream string string) :=
  Env (fun _ _ _ n =>
         if (n =? 0)%nat then Ok (SYield "A" (SRaise (Exn "ConnectionError" None)))
         else Ok (stream_of_list ["A"; "B"]))
      (fun _ => None).

(** A fetch function that always returns [items], and an executor that
    takes no job. *)
Definition ex_shutdown (items : list string) : env string (stream string string) :=
  Env (fun _ _ _ _ => Ok (stream_of_list items))
      (fun _ => Some (Exn "RuntimeError" None)).

(** An observer that raises whenever it is called. *)
Definition ex_raising : callback string :=
  fun _ d => (d, Some (Exn "ObserverError" None)).

(** The parameters of a call that gives the fetch function only. *)
Definition defaults (f : callable) : config string (string -> bool) (string -> Z) :=
  Config f None None (Some 5%Z) None None None None None None ∅.

(** A call with nothing but the fetch function and [max_tries]. *)
Definition ex_config (m : option Z) : config string (string -> bool) (string -> Z) :=
  with_max_tries m (defaults ex_fetch).

(** A call with arguments for the fetch function. *)
Definition ex_search : config string (string -> bool) (string -> Z) :=
  Config ex_fetch (Some [VInt 7]) (Some [("tag", VStr "cat")]) (Some 2%Z)
    None None None None None None ∅.

(** A call with a filter that every item passes and, optionally, an
    exclusion. *)
Definition ex_filtering (exclude_q : option (string -> bool))
  : config string (string -> bool) (string -> Z) :=
  Config ex_fetch None None (Some 5%Z) None None None (Some (fun _ => true))
    exclude_q None ∅.

(** A call with an observer and a keyword argument for [download]. *)
Definition ex_observed (cb : option (callback string))
  : config string (string -> bool) (string -> Z) :=
  Config ex_fetch None None (Some 5%Z) cb None None None None None
    {["directory" := VStr "out"]}.

(** The state in which the second pass starts when the first result broke
    after its first item. *)
Definition ex_after_break : state string :=
  default ex_state
    (after_failures (pass ex_breaking (ex_config (Some 2%Z)) 0)
       1 (start (ex_config (Some 2%Z)) ex_state)).

(** The state in which the second pass starts when the executor takes no
    job. *)
Definition ex_after_shutdown : state string :=
  default ex_state
    (after_failures (pass (ex_shutdown ["A"]) (ex_config (Some 2%Z)) 0)
       1 (start (ex_config (Some 2%Z)) ex_state)).

(** ** What a pass gets through *)

Section Outcome.
Context {Item Q Key QS : Type} `{!QuerySet Item Q Key QS}.

(** How far the [for] loop of a pass gets over the sequence [s], the
    executor having been asked [n] times before: the pairs whose download
    was submitted, and the exception that ended the loop, if one did. *)
Fixpoint loop_outcome (E : env Item QS) (n : nat) (s : stream Item (nat * Item))
  : list (nat * Item) * option (exn Item) :=
  match s with
  | SEnd => ([], None)
  | SRaise e => ([], Some e)
  | SYield oi rest =>
      match submit_fault E n with
      | Some e => ([], Some e)
      | None =>
          let (submitted, r) := loop_outcome E (S n) rest in
          (oi :: submitted, r)
      end
  end.

(** The exception a pass ends with before its loop reaches a first item:
    raised by invocation [n] of the fetch function, by a stage of the
    pipeline or by the enumeration at once. *)
Definition early_failure (E : env Item QS) (c : config Item Q Key) (n : nat)
  : option (exn Item) :=
  match call_result E (fetch_func c) (default [] (args c)) (default [] (kwargs c)) n with
  | Raise e => Some e
  | Ok qs =>
      match selected c qs with
      | SRaise e => Some e
      | _ => None
      end
  end.

(** [except Exception as e], taken literally: what a pass raises is
    caught when it is an instance of [Exception], which [is_Exception]
    tells; anything else (a KeyboardInterrupt, a SystemExit) leaves the
    loop at once, as it is. [retry_loop] above is this loop when all that
    is raised is an instance of [Exception]. *)
Fixpoint retry_loop_except (is_Exception : exn Item -> bool) (E : env Item QS)
  (c : config Item Q Key) (fetch : FunctionCall.t Item) (download_kwargs : loc)
  (submit_download_callback : option (future -> loc -> M unit))
  (fuel : nat) (tries : nat) (st : state Item)
  : option (res Item (list (Item * future)) * state Item) :=
  match fuel with
  | O => None
  | S fuel' =>
      match attempt E c fetch download_kwargs submit_download_callback st with
      | (Ok _, st') => Some (Ok (futures st'), st')
      | (Raise e, st') =>
          if is_Exception e then
            if may_retry (max_tries c) tries
            then retry_loop_except is_Exception E c fetch download_kwargs
                   submit_download_callback fuel' (S tries) st'
            else Some (Raise (set_fetch_call e fetch), st')
          else Some (Raise e, st')
      end
  end.

(** The retry loop of a call, with the classes of what is raised. *)
Definition retry_except (is_Exception : exn Item -> bool) (E : env Item QS)
  (c : config Item Q Key) (dk : loc) (fuel tries : nat) (st : state Item)
  : option (res Item (list (Item * future)) * state Item) :=
  retry_loop_except is_Exception E c (fetch_of c) dk
    (option_map safe_callback (submit_download_callback c)) fuel tries st.

(** The body of [PixieQueen.fetch_and_download], with the classes of what
    is raised. *)
Definition fetch_and_download_except (is_Exception : exn Item -> bool)
  (E : env Item QS) (c : config Item Q Key) (fuel : nat) (st : state Item)
  : option (res Item (list (Item * future)) * state Item) :=
  retry_except is_Exception E c (length (heap st)) fuel 1 (start c st).

(** The state after [k] consecutive passes of [a] that all raise an
    instance of [Exception], if they all do. *)
Fixpoint after_caught (is_Exception : exn Item -> bool) (a : M unit) (k : nat)
  (st : state Item) : option (state Item) :=
  match k with
  | O => Some st
  | S k' =>
      match a st with
      | (Raise e, st') =>
          if is_Exception e then after_caught is_Exception a k' st' else None
      | (Ok _, _) => None
      end
  end.

End Outcome.

(** ** The executor wrappers of PixieQueen *)

Module Queen.

(** A task for the executor: the function, whether the queen itself is
    passed as first argument, and the caller's arguments. *)
Record task (Item : Type) := Task {
  func : callable;
  bound : bool;
  task_args : list (value Item);
  task_kwargs : list (string * value Item)
}.

Arguments Task {Item} func bound task_args task_kwargs.

(** What the ThreadPoolExecutor is asked to do. *)
Inductive request (Item : Type) :=
| Submit (t : task Item)
| Shutdown (wait : bool).

Arguments Submit {Item} t.
Arguments Shutdown {Item} wait.

(** A PixieQueen, as far as queen.py goes: its executor, given by the
    number of workers it was made with and the requests it has received.
    The part that [PixivPixie.__init__] sets up is not in queen.py. *)
Record t (Item : Type) := Build {
  max_workers : nat;
  requests : list (request Item)
}.

Arguments Build {Item} max_workers requests.
Arguments max_workers {Item} _.
Arguments requests {Item} _.

(** [PixieQueen.__init__]: [ThreadPoolExecutor(max_workers=max_workers)],
    5 workers when the caller gives no number. *)
Definition __init__ {Item} (max_workers : option nat) : t Item :=
  Build (default 5 max_workers) [].

(** [PixieQueen.submit]: hands the task to the executor, and returns or
    raises what the executor does; [answer] is the executor's part. *)
Definition submit {Item} (answer : list (request Item) -> task Item -> res Item future)
  (q : t Item) (k : task Item) : res Item future * t Item :=
  (answer (requests q) k, Build (max_workers q) (requests q ++ [Submit k])).

(** [PixieQueen.shutdown] *)
Definition shutdown {Item} (q : t Item) (wait : bool) : t Item :=
  Build (max_workers q) (requests q ++ [Shutdown wait]).

(** [PixieQueen.__enter__] *)
Definition __enter__ {Item} (q : t Item) : t Item := q.

(** [PixieQueen.__exit__]: the exception that left the block, if any, is
    not looked at. *)
Definition __exit__ {Item} (q : t Item) (exc : option (exn Item)) : bool * t Item :=
  (false, shutdown q true).

(** The decorator [_submit]: the decorated method submits the function
    with the queen and the caller's arguments. *)
Definition _submit {Item} (f : callable)
  (answer : list (request Item) -> task Item -> res Item future)
  (q : t Item) (a : list (value Item)) (k : list (string * value Item))
  : res Item future * t Item :=
  submit answer q (Task f true a k).

(** [PixieQueen._download_one_url] *)
Definition _download_one_url {Item} :=
  @_submit Item (Callable (Some "_download_one_url") "<function _download_one_url>").

(** [PixieQueen.download] *)
Definition download {Item} :=
  @_submit Item (Callable (Some "download") "<function download>").

(** Python's [with q: body]: [__enter__], the block, then [__exit__] with
    the exception that left the block, which is raised again unless
    [__exit__] returns true. *)
Definition with_block {Item} (q : t Item) (body : t Item -> res Item unit * t Item)
  : res Item unit * t Item :=
  match body (__enter__ q) with
  | (Ok _, q') => (Ok tt, snd (__exit__ q' None))
  | (Raise e, q') =>
      let (suppress, q'') := __exit__ q' (Some e) in
      if suppress then (Ok tt, q'') else (Raise e, q'')
  end.

(** The shutdown requests among the requests. *)
Definition shutdowns {Item} (l : list (request Item)) : list bool :=
  flat_map (fun r => match r with Shutdown w => [w] | Submit _ => [] end) l.

End Queen.

(** ** More concrete runs *)

(** A call with a negative [limit_before]. *)
Definition ex_negative_limit : config string (string -> bool) (string -> Z) :=
  Config ex_fetch None None (Some 2%Z) None None (Some (-1)%Z) None None None ∅.

(** A fetch function that never returns; the executor takes every job. *)
Definition ex_down : env string (stream string string) :=
  Env (fun _ _ _ _ => Raise (Exn "ConnectionError" None)) (fun _ => None).

(** Python's classes, by name: the built-in exceptions that are not
    instances of [Exception]. *)
Definition ex_is_Exception (e : exn string) : bool :=
  negb ((exn_what e =? "KeyboardInterrupt")%string
        || (exn_what e =? "SystemExit")%string
        || (exn_what e =? "GeneratorExit")%string).

(** A fetch function that calls [sys.exit()] whenever it is invoked; the
    executor takes every job. *)
Definition ex_exiting : env string (stream string string) :=
  Env (fun _ _ _ _ => Raise (Exn "SystemExit" None)) (fun _ => None).

(** A fetch function whose results all break after their first item [A];
    the executor takes every job. *)
Definition ex_always_breaking : env string (stream string string) :=
  Env (fun _ _ _ _ => Ok (SYield "A" (SRaise (Exn "ConnectionError" None))))
      (fun _ => None).

(** The state in which the second pass starts then. *)
Definition ex_after_first_break : state string :=
  default ex_state
    (after_failures (pass ex_always_breaking (ex_config (Some 2%Z)) 0)
       1 (start (ex_config (Some 2%Z)) ex_state)).

(** The scenario of the specification: the first three items, without
    [C], and of these the first two. *)
Definition ex_scenario : config string (string -> bool) (string -> Z) :=
  Config ex_fetch None None (Some 5%Z) None None (Some 3%Z) None
    (Some (String.eqb "C")) (Some 2%Z) ∅.

(** An executor that takes every task and numbers its futures. *)
Definition ex_answer (l : list (Queen.request string)) (k : Queen.task string)
  : res string future :=
  Ok (length l).

(** The state a call that starts in [ex_state] ends in. *)
Definition ex_end_of (E : env string (stream string string))
  (c : config string (string -> bool) (string -> Z)) (fuel : nat) : state string :=
  match fetch_and_download E c fuel ex_state with
  | Some (_, st') => st'
  | None => ex_state
  end.

(** [repr] when the illust class has a [__repr__] that returns the empty
    string. *)
Definition ex_blank_repr (v : value string) : string :=
  match v with
  | VIllust _ => ""
  | _ => ex_repr v
  end.

(** A block that submits one download and then fails. *)
Definition ex_block (q : Queen.t string) : res string unit * Queen.t string :=
  let (_, q') := Queen.download ex_answer q [VStr "illust"] [] in
  (Raise (Exn "ValueError" None), q').

(** ** Strings and [FunctionCall.__str__] *)

Lemma append_assoc (a b c : string) : ((a ++ b) ++ c = a ++ (b ++ c))%string.
Proof.
  induction a as [|x a IH]; [done|].
  change (String x ((a ++ b) ++ c) = String x (a ++ (b ++ c)))%string.
  by rewrite IH.
Qed.

Lemma truthy_true (s : string) : FunctionCall.truthy s = true <-> s <> ""%string.
Proof. destruct s; simpl; split; congruence. Qed.

Lemma truthy_append (a b : string) :
  FunctionCall.truthy a = true -> FunctionCall.truthy (a ++ b)%string = true.
Proof. by destruct a. Qed.

Lemma join_cons (x : string) (l : list string) :
  l <> [] -> FunctionCall.join (x :: l) = (x ++ ", " ++ FunctionCall.join l)%string.
Proof. by destruct l. Qed.

Lemma join_truthy (x : string) (l : list string) :
  FunctionCall.truthy x = true -> FunctionCall.truthy (FunctionCall.join (x :: l)) = true.
Proof.
  intros Hx. destruct l as [|y l]; [done|].
  rewrite join_cons by done. by apply truthy_append.
Qed.

Lemma join_app (l1 l2 : list string) :
  l1 <> [] -> l2 <> [] ->
  FunctionCall.join (l1 ++ l2)
  = (FunctionCall.join l1 ++ ", " ++ FunctionCall.join l2)%string.
Proof.
  intros H1 H2. induction l1 as [|x l1 IH]; [done|].
  destruct l1 as [|y l1].
  - simpl app. by rewrite join_cons.
  - change ((x :: y :: l1) ++ l2) with (x :: ((y :: l1) ++ l2)).
    rewrite !join_cons by done. rewrite IH by done.
    by rewrite !append_assoc.
Qed.

Lemma kwarg_str_truthy {Item} (repr : value Item -> string) (kv : string * value Item) :
  FunctionCall.truthy (FunctionCall.kwarg_str repr kv) = true.
Proof.
  unfold FunctionCall.kwarg_str. destruct (fst kv); done.
Qed.

Lemma parameter_str_join {Item} (repr : value Item -> string) (c : FunctionCall.t Item) :
  (forall v, In v (FunctionCall.args c) -> repr v <> ""%string) ->
  FunctionCall.parameter_str repr c
  = FunctionCall.join (map repr (FunctionCall.args c)
                       ++ map (FunctionCall.kwarg_str repr) (FunctionCall.kwargs c)).
Proof.
  intros Hrepr. unfold FunctionCall.parameter_str.
  destruct (FunctionCall.args c) as [|v vs], (FunctionCall.kwargs c) as [|kv kvs].
  - done.
  - simpl map. simpl app.
    rewrite (join_truthy _ _ (kwarg_str_truthy repr kv)). done.
  - rewrite app_nil_r. simpl map.
    assert (Hv : FunctionCall.truthy (repr v) = true).
    { apply truthy_true, Hrepr. by left. }
    by rewrite (join_truthy _ _ Hv).
  - assert (Hv : FunctionCall.truthy (repr v) = true).
    { apply truthy_true, Hrepr. by left. }
    simpl map.
    rewrite (join_truthy _ _ Hv), (join_truthy _ _ (kwarg_str_truthy repr kv)).
    simpl andb. cbv iota. by rewrite join_app.
Qed.

Section Proofs.
Context {Item Q Key QS : Type} `{!QuerySet Item Q Key QS}.

Lemma heap_snoc_lookup (h : list (gmap string (value Item))) (d : gmap string (value Item)) :
  (h ++ [d]) !! length h = Some d.
Proof. rewrite lookup_app_r by lia. by rewrite Nat.sub_diag. Qed.

Lemma heap_snoc_insert (h : list (gmap string (value Item))) (d d' : gmap string (value Item)) :
  <[length h := d']> (h ++ [d]) = h ++ [d'].
Proof.
  rewrite insert_app_r_alt by lia. by rewrite Nat.sub_diag.
Qed.

Lemma hint_after_illust (d : gmap string (value Item)) (i : Item) :
  is_None (default VNone (<["illust" := VIllust i]> d !! "addition_naming_info"))
  = negb (naming_hint_supplied d).
Proof.
  rewrite lookup_insert_ne by done. unfold naming_hint_supplied.
  destruct (d !! "addition_naming_info") as [v|]; simpl; [|done].
  by rewrite negb_involutive.
Qed.

Lemma loop_body_run (E : env Item QS) (dk : loc) (cb : option (callback Item))
  (oi : nat * Item) (st : state Item) :
  let params := download_params (default ∅ (heap st !! dk)) oi in
  loop_body E dk (option_map safe_callback cb) oi st =
  match submit_fault E (submit_calls st) with
  | Some e =>
      (Raise e,
       State (fetch_calls st) (S (submit_calls st)) (pool st)
         (heap st ++ [params]) (log st) (futures st))
  | None =>
      let ac := after_callback cb (length (pool st)) params in
      (Ok tt,
       State (fetch_calls st) (S (submit_calls st))
         (pool st ++ [Download params]) (heap st ++ [fst ac])
         (log st ++ snd ac) (futures st ++ [(snd oi, length (pool st))]))
  end.
Proof.
  destruct st as [fc sc p h lg fu], oi as [order illust]. simpl.
  unfold loop_body, dict_copy, dict_setitem, dict_get, dict_load, dict_new,
    dict_store, download, submit, futures_append, bind, ret, set_heap,
    set_futures. simpl.
  rewrite !heap_snoc_lookup. simpl. rewrite !heap_snoc_insert, heap_snoc_lookup.
  simpl. rewrite hint_after_illust.
  unfold download_params. simpl.
  destruct (naming_hint_supplied (default ∅ (h !! dk))); simpl;
    rewrite ?heap_snoc_insert, ?heap_snoc_lookup; simpl;
    destruct (submit_fault E sc); simpl; try reflexivity.
  all: destruct cb as [g|]; simpl; unfold safe_callback, set_heap, set_log; simpl;
    rewrite ?heap_snoc_lookup; simpl.
  all: try (destruct (g _ _) as [d' [e|]]; simpl; rewrite ?heap_snoc_insert, ?app_nil_r; reflexivity).
  all: rewrite ?app_nil_r; reflexivity.
Qed.

Lemma pairs_from_cons (n : nat) (a : nat * Item) (l : list (nat * Item)) :
  pairs_from n (a :: l) = (snd a, n) :: pairs_from (S n) l.
Proof.
  unfold pairs_from. simpl. rewrite Nat.add_0_r. f_equal.
  apply imap_ext. intros i x _. simpl. f_equal. lia.
Qed.

Lemma pairs_from_app (n : nat) (l1 l2 : list (nat * Item)) :
  pairs_from n (l1 ++ l2) = pairs_from n l1 ++ pairs_from (n + length l1) l2.
Proof.
  revert n. induction l1 as [|a l1 IH]; intros n.
  - simpl. by rewrite Nat.add_0_r.
  - change ((a :: l1) ++ l2) with (a :: (l1 ++ l2)).
    rewrite !pairs_from_cons, IH. simpl. do 3 f_equal. lia.
Qed.

Lemma pairs_from_length (n : nat) (l : list (nat * Item)) :
  length (pairs_from n l) = length l.
Proof. unfold pairs_from. by rewrite length_imap. Qed.

Lemma pairs_from_items (n : nat) (l : list (nat * Item)) :
  map fst (pairs_from n l) = map snd l.
Proof.
  revert n. induction l as [|a l IH]; intros n; [done|].
  rewrite pairs_from_cons. simpl. by rewrite IH.
Qed.

Lemma pairs_from_futures (n : nat) (l : list (nat * Item)) :
  map snd (pairs_from n l) = seq n (length l).
Proof.
  revert n. induction l as [|a l IH]; intros n; [done|].
  rewrite pairs_from_cons. simpl. by rewrite IH.
Qed.

Lemma observer_log_cons (cb : option (callback Item)) (d : gmap string (value Item)) (n : nat)
  (a : nat * Item) (l : list (nat * Item)) :
  observer_log cb d n (a :: l)
  = snd (after_callback cb n (download_params d a)) ++ observer_log cb d (S n) l.
Proof.
  unfold observer_log. simpl. rewrite Nat.add_0_r. do 2 f_equal.
  apply imap_ext. intros i x _. simpl. do 2 f_equal. lia.
Qed.

Lemma grows_refl (dk : loc) (st : state Item) : grows dk [] st st.
Proof.
  unfold grows. simpl. rewrite !app_nil_r.
  repeat split; try done; by exists []; rewrite app_nil_r.
Qed.

Lemma grows_trans (dk : loc) (l1 l2 : list (nat * Item)) (st1 st2 st3 : state Item) :
  dk < length (heap st1) ->
  grows dk l1 st1 st2 -> grows dk l2 st2 st3 -> grows dk (l1 ++ l2) st1 st3.
Proof.
  intros Hdk (Hp1 & Hf1 & [hs1 Hh1] & [ls1 Hl1] & Hc1 & Hs1)
    (Hp2 & Hf2 & [hs2 Hh2] & [ls2 Hl2] & Hc2 & Hs2).
  assert (Hd : heap st2 !! dk = heap st1 !! dk).
  { rewrite Hh1. by apply lookup_app_l. }
  unfold grows. rewrite Hp2, Hf2, Hh2, Hl2, Hd, Hp1, Hf1, Hh1, Hl1.
  rewrite map_app, pairs_from_app, !length_app, length_map, <- !app_assoc.
  repeat split; try done; try lia; eauto.
Qed.

Lemma grows_heap (dk : loc) (l : list (nat * Item)) (st st' : state Item) :
  dk < length (heap st) -> grows dk l st st' ->
  heap st' !! dk = heap st !! dk /\ dk < length (heap st').
Proof.
  intros Hdk (_ & _ & [hs Hh] & _). rewrite Hh. split.
  - by apply lookup_app_l.
  - rewrite length_app. lia.
Qed.

Section Loop.
Variable E : env Item QS.
Variable dk : loc.
Variable cb : option (callback Item).

Lemma loop_body_grows (oi : nat * Item) (st : state Item) :
  exists st', 
    (submit_fault E (submit_calls st) = None /\
     (loop_body E dk (option_map safe_callback cb)) oi st = (Ok tt, st') /\ grows dk [oi] st st'
     /\ submit_calls st' = S (submit_calls st) /\ fetch_calls st' = fetch_calls st
     /\ log st' = log st
          ++ snd (after_callback cb (length (pool st))
                    (download_params (default ∅ (heap st !! dk)) oi)))
    \/ (exists e, submit_fault E (submit_calls st) = Some e /\
        (loop_body E dk (option_map safe_callback cb)) oi st = (Raise e, st') /\ grows dk [] st st'
        /\ fetch_calls st' = fetch_calls st).
Proof.
  rewrite loop_body_run.
  destruct (submit_fault E (submit_calls st)) as [e|] eqn:Hf; eexists.
  - right. exists e. repeat split; simpl; rewrite ?app_nil_r; eauto.
    by exists []; rewrite app_nil_r.
  - left. repeat split; simpl; eauto.
    by rewrite pairs_from_cons.
Qed.

Lemma for_each_grows (s : stream Item (nat * Item)) (st st' : state Item)
  (r : res Item unit) :
  dk < length (heap st) ->
  for_each s (loop_body E dk (option_map safe_callback cb)) st = (r, st') ->
  exists its, grows dk its st st' /\ fetch_calls st' = fetch_calls st.
Proof.
  revert st. induction s as [|a rest IH|e]; intros st Hdk Hrun; simpl in Hrun.
  - injection Hrun as <- <-. exists []. split; [apply grows_refl | done].
  - unfold bind in Hrun.
    destruct (loop_body_grows a st) as [st1 [(_ & Hb & Hg & _ & Hc & _) | (e & _ & Hb & Hg & Hc)]];
      rewrite Hb in Hrun.
    + destruct (grows_heap _ _ _ _ Hdk Hg) as [_ Hdk1].
      destruct (IH _ Hdk1 Hrun) as (its & Hg' & Hc').
      exists ([a] ++ its). split; [by eapply grows_trans | congruence].
    + injection Hrun as <- <-. exists []. by split.
  - injection Hrun as <- <-. exists []. split; [apply grows_refl | done].
Qed.

Lemma for_each_ok (s : stream Item (nat * Item)) (items : list (nat * Item))
  (st : state Item) :
  dk < length (heap st) ->
  stream_items s = Some items ->
  (forall j, j < length items -> submit_fault E (submit_calls st + j) = None) ->
  exists st', for_each s (loop_body E dk (option_map safe_callback cb)) st = (Ok tt, st')
    /\ grows dk items st st'
    /\ fetch_calls st' = fetch_calls st
    /\ submit_calls st' = submit_calls st + length items
    /\ log st' = log st
         ++ observer_log cb (default ∅ (heap st !! dk)) (length (pool st)) items.
Proof.
  revert items st. induction s as [|a rest IH|e]; intros items st Hdk Hs Hno; simpl in Hs.
  - injection Hs as <-. exists st. simpl.
    split; [done|]. split; [apply grows_refl|]. split; [done|].
    split; [lia|]. unfold observer_log. simpl. by rewrite app_nil_r.
  - destruct (stream_items rest) as [l|] eqn:Hr; [|done]. injection Hs as <-.
    simpl. unfold bind.
    destruct (loop_body_grows a st) as [st1 [(_ & Hb & Hg & Hsc & Hc & Hl) | (e & Hf & _)]].
    + rewrite Hb. destruct (grows_heap _ _ _ _ Hdk Hg) as [Hd1 Hdk1].
      destruct (IH l st1 Hdk1 eq_refl) as (st' & Hrun & Hg' & Hc' & Hsc' & Hl').
      { intros j Hj. rewrite Hsc. replace (S (submit_calls st) + j) with (submit_calls st + S j) by lia.
        apply Hno. simpl. lia. }
      exists st'. split; [done|]. split; [|split; [congruence | split; [simpl; lia|]]].
      { change (a :: l) with ([a] ++ l). by eapply grows_trans. }
      rewrite Hl', Hl, Hd1, observer_log_cons, <- app_assoc.
      destruct Hg as (Hp & _). rewrite Hp, length_app. simpl.
      by rewrite Nat.add_1_r.
    + rewrite <- (Nat.add_0_r (submit_calls st)) in Hf. rewrite Hno in Hf; [done | simpl; lia].
  - done.
Qed.

End Loop.

(** ** One pass *)

Section Pass.
Variable E : env Item QS.
Variable c : config Item Q Key.
Variable dk : loc.

Lemma attempt_run (st : state Item) :
  pass E c dk st =
  match call_result E (fetch_func c) (default [] (args c))
          (default [] (kwargs c)) (fetch_calls st) with
  | Ok qs =>
      for_each (selected c qs) (loop_body E dk (option_map safe_callback (submit_download_callback c)))
        (called st)
  | Raise e => (Raise e, called st)
  end.
Proof.
  unfold pass, attempt, FunctionCall.__call__, invoke, bind, lift, selected, pipeline.
  simpl. fold (called st).
  destruct (call_result _ _ _ _ _) as [qs|e]; [|done].
  destruct (stage (order_by c) _ qs) as [qs1|e]; [|done]. simpl.
  destruct (stage (limit_before c) _ qs1) as [qs2|e]; [|done]. simpl.
  destruct (stage (filter_q c) _ qs2) as [qs3|e]; [|done]. simpl.
  destruct (stage (exclude_q c) _ qs3) as [qs4|e]; [|done]. simpl.
  destruct (stage (limit_after c) _ qs4) as [qs5|e]; done.
Qed.

Lemma called_grows (st : state Item) : grows dk [] st (called st).
Proof.
  unfold grows, called. simpl. rewrite !app_nil_r.
  repeat split; try done; try lia; by exists []; rewrite app_nil_r.
Qed.

Lemma attempt_grows (st st' : state Item) (r : res Item unit) :
  dk < length (heap st) ->
  pass E c dk st = (r, st') ->
  exists its, grows dk its st st' /\ fetch_calls st' = S (fetch_calls st).
Proof.
  intros Hdk. rewrite attempt_run.
  destruct (call_result _ _ _ _ _) as [qs|e]; intros Hrun.
  - apply for_each_grows in Hrun as (its & Hg & Hc); [|done].
    exists ([] ++ its). split; [|done].
    eapply grows_trans; [done | apply called_grows | done].
  - injection Hrun as <- <-. exists []. split; [apply called_grows | done].
Qed.

Lemma attempt_ok (st : state Item) (qs : QS) (items : list (nat * Item)) :
  dk < length (heap st) ->
  call_result E (fetch_func c) (default [] (args c))
    (default [] (kwargs c)) (fetch_calls st) = Ok qs ->
  stream_items (selected c qs) = Some items ->
  (forall j, j < length items -> submit_fault E (submit_calls st + j) = None) ->
  exists st', pass E c dk st = (Ok tt, st')
    /\ grows dk items st st'
    /\ fetch_calls st' = S (fetch_calls st)
    /\ submit_calls st' = submit_calls st + length items
    /\ log st' = log st
         ++ observer_log (submit_download_callback c) (default ∅ (heap st !! dk)) (length (pool st)) items.
Proof.
  intros Hdk Hq Hs Hno. rewrite attempt_run, Hq.
  destruct (for_each_ok E dk (submit_download_callback c) (selected c qs) items
              (called st) Hdk Hs Hno)
    as (st' & Hrun & Hg & Hc & Hsc & Hl).
  exists st'. split; [done|]. split; [|done].
  change items with ([] ++ items).
  eapply grows_trans; [done | apply called_grows | done].
Qed.

Lemma attempt_fetch_raises (st : state Item) (e : exn Item) :
  call_result E (fetch_func c) (default [] (args c))
    (default [] (kwargs c)) (fetch_calls st) = Raise e ->
  pass E c dk st = (Raise e, called st).
Proof. intros Hq. by rewrite attempt_run, Hq. Qed.

(** ** The retry loop *)

Lemma retry_loop_returns (fuel tries : nat) (st st' : state Item) :
  pass E c dk st = (Ok tt, st') ->
  retry E c dk (S fuel) tries st = Some (Ok (futures st'), st').
Proof. unfold retry, pass. simpl. by intros ->. Qed.

Lemma retry_loop_raises (fuel tries : nat) (st st' : state Item) (e : exn Item) :
  pass E c dk st = (Raise e, st') ->
  may_retry (max_tries c) tries = false ->
  retry E c dk (S fuel) tries st = Some (Raise (set_fetch_call e (fetch_of c)), st').
Proof. unfold retry, pass. simpl. by intros -> ->. Qed.

Lemma retry_loop_skips (k fuel tries : nat) (st stk : state Item) :
  after_failures (pass E c dk) k st = Some stk ->
  (forall i, i < k -> may_retry (max_tries c) (tries + i) = true) ->
  retry E c dk (k + fuel) tries st = retry E c dk fuel (tries + k) stk.
Proof.
  revert tries st. induction k as [|k IH]; intros tries st Hk Hm; simpl in Hk.
  - injection Hk as <-. by rewrite Nat.add_0_r.
  - destruct (pass E c dk st) as [[[]|e] st1] eqn:Ha; [done|].
    change (S k + fuel) with (S (k + fuel)). unfold retry. simpl.
    fold (pass E c dk). rewrite Ha.
    rewrite <- (Nat.add_0_r tries) at 1. rewrite Hm by lia.
    change (retry_loop E c (fetch_of c) dk _ (k + fuel) (S tries) st1)
      with (retry E c dk (k + fuel) (S tries) st1).
    rewrite (IH (S tries) st1 Hk).
    + f_equal. lia.
    + intros i Hi. replace (S tries + i) with (tries + S i) by lia. apply Hm. lia.
Qed.

Lemma after_failures_grows (k : nat) (st stk : state Item) :
  dk < length (heap st) ->
  after_failures (pass E c dk) k st = Some stk ->
  exists its, grows dk its st stk /\ fetch_calls stk = fetch_calls st + k.
Proof.
  revert st. induction k as [|k IH]; intros st Hdk Hk; simpl in Hk.
  - injection Hk as <-. exists []. split; [apply grows_refl | lia].
  - destruct (pass E c dk st) as [[[]|e] st1] eqn:Ha; [done|].
    destruct (attempt_grows _ _ _ Hdk Ha) as (l1 & Hg1 & Hc1).
    destruct (grows_heap _ _ _ _ Hdk Hg1) as [_ Hdk1].
    destruct (IH st1 Hdk1 Hk) as (l2 & Hg2 & Hc2).
    exists (l1 ++ l2). split; [by eapply grows_trans | lia].
Qed.

End Pass.

Lemma fetch_and_download_start (E : env Item QS) (c : config Item Q Key)
  (fuel : nat) (st : state Item) :
  fetch_and_download E c fuel st
  = retry E c (length (heap st)) fuel 1 (start c st).
Proof. reflexivity. Qed.

Lemma start_heap (c : config Item Q Key) (st : state Item) :
  length (heap st) < length (heap (start c st))
  /\ heap (start c st) !! length (heap st) = Some (download_kwargs c).
Proof.
  simpl. rewrite length_app, heap_snoc_lookup. simpl. split; [lia | done].
Qed.


Lemma pass_fetch_raises (E : env Item QS) (c : config Item Q Key) (dk : loc)
  (st : state Item) (e : exn Item) :
  call_result E (fetch_func c) (default [] (args c)) (default [] (kwargs c))
    (fetch_calls st) = Raise e ->
  pass E c dk st = (Raise e, called st).
Proof. apply attempt_fetch_raises. Qed.

Lemma after_fetch_failures (E : env Item QS) (c : config Item Q Key) (dk : loc)
  (errs : nat -> exn Item) (k : nat) (st : state Item) :
  (forall i, i < k ->
     call_result E (fetch_func c) (default [] (args c)) (default [] (kwargs c))
       (fetch_calls st + i) = Raise (errs i)) ->
  after_failures (pass E c dk) k st
  = Some (State (fetch_calls st + k) (submit_calls st) (pool st) (heap st)
            (log st) (futures st)).
Proof.
  revert errs st. induction k as [|k IH]; intros errs st Hf; simpl.
  - rewrite Nat.add_0_r. by destruct st.
  - rewrite (pass_fetch_raises _ _ _ _ (errs 0)).
    2:{ rewrite <- (Nat.add_0_r (fetch_calls st)). apply Hf. lia. }
    rewrite (IH (fun i => errs (S i))).
    + simpl. do 2 f_equal. lia.
    + intros i Hi. simpl. replace (S (fetch_calls st + i)) with (fetch_calls st + S i) by lia.
      apply Hf. lia.
Qed.

Lemma may_retry_below (m : Z) (tries : nat) :
  (Z.of_nat tries < m)%Z -> may_retry (Some m) tries = true.
Proof. intros H. simpl. by apply Z.ltb_lt. Qed.

Lemma may_retry_reached (m : Z) (tries : nat) :
  (m <= Z.of_nat tries)%Z -> may_retry (Some m) tries = false.
Proof. intros H. simpl. by apply Z.ltb_ge. Qed.

(** C2. A fetch function that raises on its first [k] invocations and
    returns on invocation [k + 1]: with [max_tries = k + 1] the call
    returns the pairs of the selected items and has invoked the fetch
    function exactly [k + 1] times; with [max_tries = k], [k >= 1], the
    failure of the [k]-th invocation is raised to the caller. *)
Theorem C2_retry_until_fetch_succeeds (E : env Item QS) (c : config Item Q Key)
  (k : nat) (errs : nat -> exn Item) (qs : QS) (items : list (nat * Item))
  (st : state Item) :
  (forall i, i < k ->
     call_result E (fetch_func c) (default [] (args c)) (default [] (kwargs c))
       (fetch_calls st + i) = Raise (errs i)) ->
  call_result E (fetch_func c) (default [] (args c)) (default [] (kwargs c))
    (fetch_calls st + k) = Ok qs ->
  stream_items (selected c qs) = Some items ->
  (forall j, j < length items -> submit_fault E (submit_calls st + j) = None) ->
  (forall extra, exists st',
      fetch_and_download E (with_max_tries (Some (Z.of_nat k + 1)%Z) c)
        (k + 1 + extra) st
      = Some (Ok (pairs_from (length (pool st)) items), st')
      /\ fetch_calls st' = fetch_calls st + (k + 1))
  /\ (1 <= k -> forall extra, exists st',
        fetch_and_download E (with_max_tries (Some (Z.of_nat k)) c) (k + extra) st
        = Some (Raise (set_fetch_call (errs (k - 1)) (fetch_of c)), st')
        /\ fetch_calls st' = fetch_calls st + k).
Proof.
  intros Hfail Hok Hsel Hno. split.
  - intros extra. set (c' := with_max_tries _ c).
    rewrite fetch_and_download_start.
    pose proof (after_fetch_failures E c' (length (heap st)) errs k (start c' st) Hfail) as Hk.
    replace (k + 1 + extra) with (k + S extra) by lia.
    rewrite (retry_loop_skips E c' _ k (S extra) 1 _ _ Hk).
    2:{ intros i Hi. apply may_retry_below. lia. }
    set (stk := State _ _ _ _ _ _).
    destruct (attempt_ok E c' (length (heap st)) stk qs items) as (st' & Hrun & Hg & Hc & _); try done.
    { simpl. rewrite length_app. simpl. lia. }
    exists st'. rewrite (retry_loop_returns _ _ _ _ _ _ _ Hrun).
    destruct Hg as (_ & Hfu & _). rewrite Hfu, Hc. simpl. split; [done | lia].
  - intros Hk1 extra. set (c' := with_max_tries _ c).
    destruct k as [|k]; [lia|].
    rewrite fetch_and_download_start.
    assert (Hfail' : forall i, i < k ->
              call_result E (fetch_func c') (default [] (args c')) (default [] (kwargs c'))
                (fetch_calls (start c' st) + i) = Raise (errs i)).
    { intros i Hi. apply Hfail. lia. }
    pose proof (after_fetch_failures E c' (length (heap st)) errs k (start c' st) Hfail') as Hk.
    replace (S k + extra) with (k + S extra) by lia.
    rewrite (retry_loop_skips E c' _ k (S extra) 1 _ _ Hk).
    2:{ intros i Hi. apply may_retry_below. lia. }
    set (stk := State _ _ _ _ _ _).
    assert (Hlast : pass E c' (length (heap st)) stk = (Raise (errs k), called stk)).
    { apply pass_fetch_raises. apply Hfail. lia. }
    exists (called stk).
    rewrite (retry_loop_raises E c' _ _ _ _ _ _ Hlast).
    + replace (S k - 1) with k by lia. split; [done | simpl; lia].
    + apply may_retry_reached. lia.
Qed.


Lemma fetch_and_download_skips (E : env Item QS) (c : config Item Q Key)
  (k : nat) (st stk : state Item) :
  after_failures (pass E c (length (heap st))) k (start c st) = Some stk ->
  (forall i, i < k -> may_retry (max_tries c) (1 + i) = true) ->
  forall fuel,
    fetch_and_download E c (k + fuel) st
    = retry E c (length (heap st)) fuel (1 + k) stk.
Proof.
  intros Hk Hm fuel. rewrite fetch_and_download_start.
  by rewrite (retry_loop_skips E c _ k fuel 1 _ _ Hk Hm).
Qed.

Lemma after_failures_start (E : env Item QS) (c : config Item Q Key)
  (k : nat) (st stk : state Item) :
  after_failures (pass E c (length (heap st))) k (start c st) = Some stk ->
  length (heap st) < length (heap stk)
  /\ heap stk !! length (heap st) = Some (download_kwargs c)
  /\ fetch_calls stk = fetch_calls st + k
  /\ exists left,
       futures stk = pairs_from (length (pool st)) left
       /\ pool stk = pool st
            ++ map (fun oi => Download (download_params (download_kwargs c) oi)) left.
Proof.
  intros Hk. destruct (start_heap c st) as [Hdk Hd].
  destruct (after_failures_grows E c _ k _ _ Hdk Hk) as (left & Hg & Hc).
  destruct (grows_heap _ _ _ _ Hdk Hg) as [Hd' Hdk'].
  split; [done|]. split; [by rewrite Hd'|]. split; [done|].
  exists left. destruct Hg as (Hp & Hfu & _). rewrite Hd in Hp. by split.
Qed.

(** C3. When the retry bound is exhausted, that is when [max_tries] is
    [m] and pass number [max m 1] raises like all passes before it, the
    call raises the exception of that last pass with [fetch_call] set to
    the [FunctionCall] of the fetch function and its arguments, whose text
    is the function name followed by the arguments in parentheses. *)
Theorem C3_exhaustion_reraises_with_fetch_call (E : env Item QS)
  (c : config Item Q Key) (repr : value Item -> string) (m : Z) (n : nat)
  (st st1 st2 : state Item) (e : exn Item) :
  max_tries c = Some m ->
  Z.of_nat (S n) = Z.max m 1 ->
  after_failures (pass E c (length (heap st))) n (start c st) = Some st1 ->
  pass E c (length (heap st)) st1 = (Raise e, st2) ->
  (forall v, In v (default [] (args c)) -> repr v <> ""%string) ->
  forall extra,
    fetch_and_download E c (S n + extra) st
    = Some (Raise (set_fetch_call e (fetch_of c)), st2)
    /\ fetch_call (set_fetch_call e (fetch_of c)) = Some (fetch_of c)
    /\ exn_what (set_fetch_call e (fetch_of c)) = exn_what e
    /\ FunctionCall.__str__ repr (fetch_of c)
       = (FunctionCall.function_name (fetch_func c) ++ "("
          ++ FunctionCall.join
               (map repr (default [] (args c))
                ++ map (FunctionCall.kwarg_str repr) (default [] (kwargs c)))
          ++ ")")%string.
Proof.
  intros Hm Hn Hk Hlast Hrepr extra. split; [|split; [done|split; [done|]]].
  - replace (S n + extra) with (n + S extra) by lia.
    rewrite (fetch_and_download_skips E c n st st1 Hk).
    + apply retry_loop_raises; [done|]. rewrite Hm. apply may_retry_reached. lia.
    + intros i Hi. rewrite Hm. apply may_retry_below. lia.
  - unfold FunctionCall.__str__. by rewrite parameter_str_join.
Qed.

Lemma after_caught_failures (isx : exn Item -> bool) (a : M unit) (k : nat)
  (st stk : state Item) :
  after_caught isx a k st = Some stk -> after_failures a k st = Some stk.
Proof.
  revert st. induction k as [|k IH]; intros st Hk; simpl in *; [done|].
  destruct (a st) as [[[]|e] st1]; [done|].
  destruct (isx e); [by apply IH | done].
Qed.

Lemma retry_except_skips (isx : exn Item -> bool) (E : env Item QS)
  (c : config Item Q Key) (dk : loc) (k fuel tries : nat) (st stk : state Item) :
  after_caught isx (pass E c dk) k st = Some stk ->
  (forall i, i < k -> may_retry (max_tries c) (tries + i) = true) ->
  retry_except isx E c dk (k + fuel) tries st
  = retry_except isx E c dk fuel (tries + k) stk.
Proof.
  revert tries st. induction k as [|k IH]; intros tries st Hk Hm; simpl in Hk.
  - injection Hk as <-. by rewrite Nat.add_0_r.
  - destruct (pass E c dk st) as [[[]|e] st1] eqn:Ha; [done|].
    destruct (isx e) eqn:He; [|done].
    change (S k + fuel) with (S (k + fuel)). unfold retry_except. simpl.
    fold (pass E c dk). rewrite Ha, He.
    rewrite <- (Nat.add_0_r tries) at 1. rewrite Hm by lia.
    change (retry_loop_except isx E c (fetch_of c) dk _ (k + fuel) (S tries) st1)
      with (retry_except isx E c dk (k + fuel) (S tries) st1).
    rewrite (IH (S tries) st1 Hk).
    + f_equal. lia.
    + intros i Hi. replace (S tries + i) with (tries + S i) by lia. apply Hm. lia.
Qed.

Lemma retry_except_raises (isx : exn Item -> bool) (E : env Item QS)
  (c : config Item Q Key) (dk : loc) (fuel tries : nat) (st st' : state Item)
  (e : exn Item) :
  pass E c dk st = (Raise e, st') ->
  isx e = true ->
  may_retry (max_tries c) tries = false ->
  retry_except isx E c dk (S fuel) tries st
  = Some (Raise (set_fetch_call e (fetch_of c)), st').
Proof. unfold retry_except, pass. simpl. by intros -> -> ->. Qed.

Lemma retry_except_lets_through (isx : exn Item -> bool) (E : env Item QS)
  (c : config Item Q Key) (dk : loc) (fuel tries : nat) (st st' : state Item)
  (e : exn Item) :
  pass E c dk st = (Raise e, st') ->
  isx e = false ->
  retry_except isx E c dk (S fuel) tries st = Some (Raise e, st').
Proof. unfold retry_except, pass. simpl. by intros -> ->. Qed.

(** When all that is raised is an instance of [Exception], the loop with
    classes is the loop without. *)
Lemma retry_except_all (E : env Item QS) (c : config Item Q Key) (dk : loc)
  (fuel tries : nat) (st : state Item) :
  retry_except (fun _ => true) E c dk fuel tries st = retry E c dk fuel tries st.
Proof.
  revert tries st. induction fuel as [|fuel IH]; intros tries st; [done|].
  unfold retry_except, retry. simpl.
  destruct (attempt E c (fetch_of c) dk _ st) as [[[]|e] st1]; [done|].
  destruct (may_retry (max_tries c) tries); [apply IH | done].
Qed.

(** C10, amended. Whatever instance of [Exception] is raised in a pass,
    by the fetch call, a pipeline stage, the enumeration or a download
    submission, the loop catches it: as long as the bound allows, the
    failure leads to another full pass, which invokes the fetch function
    again; when pass [k + 1] raises one with the bound reached, that
    exception is raised with [fetch_call] set to the fetch [FunctionCall],
    wherever it came from. What is raised and is no instance of
    [Exception] leaves the call at once, as it is. *)
Theorem C10_every_Exception_is_retried (is_Exception : exn Item -> bool)
  (E : env Item QS) (c : config Item Q Key) (k : nat) (st stk : state Item) :
  after_caught is_Exception (pass E c (length (heap st))) k (start c st)
  = Some stk ->
  (forall i, i < k -> may_retry (max_tries c) (1 + i) = true) ->
  fetch_calls stk = fetch_calls st + k
  /\ (forall fuel,
        fetch_and_download_except is_Exception E c (k + fuel) st
        = retry_except is_Exception E c (length (heap st)) fuel (1 + k) stk)
  /\ (forall e st',
        pass E c (length (heap st)) stk = (Raise e, st') ->
        fetch_calls st' = fetch_calls st + (k + 1)
        /\ (is_Exception e = true ->
            may_retry (max_tries c) (1 + k) = false ->
            forall extra,
              fetch_and_download_except is_Exception E c (k + 1 + extra) st
              = Some (Raise (set_fetch_call e (fetch_of c)), st')
              /\ fetch_call (set_fetch_call e (fetch_of c)) = Some (fetch_of c)
              /\ exn_what (set_fetch_call e (fetch_of c)) = exn_what e)
        /\ (is_Exception e = false ->
            forall extra,
              fetch_and_download_except is_Exception E c (k + 1 + extra) st
              = Some (Raise e, st'))).
Proof.
  intros Hk Hm.
  destruct (after_failures_start E c k st stk (after_caught_failures _ _ _ _ _ Hk))
    as (Hdk & _ & Hc & _).
  split; [done|]. split.
  { intros fuel. unfold fetch_and_download_except.
    by rewrite (retry_except_skips _ E c _ k fuel 1 _ _ Hk Hm). }
  intros e st' Hlast. split.
  { destruct (attempt_grows E c _ _ _ _ Hdk Hlast) as (_ & _ & Hc'). lia. }
  split.
  - intros He Hstop extra. split; [|done].
    replace (k + 1 + extra) with (k + S extra) by lia.
    unfold fetch_and_download_except.
    rewrite (retry_except_skips _ E c _ k (S extra) 1 _ _ Hk Hm).
    by apply retry_except_raises.
  - intros He extra. replace (k + 1 + extra) with (k + S extra) by lia.
    unfold fetch_and_download_except.
    rewrite (retry_except_skips _ E c _ k (S extra) 1 _ _ Hk Hm).
    by apply retry_except_lets_through.
Qed.

(** Where a pass can raise: in a pipeline stage or at the start of the
    enumeration, and in a download submission. *)
Lemma pass_raises_before_loop (E : env Item QS) (c : config Item Q Key) (dk : loc)
  (st : state Item) (qs : QS) (e : exn Item) :
  call_result E (fetch_func c) (default [] (args c)) (default [] (kwargs c))
    (fetch_calls st) = Ok qs ->
  selected c qs = SRaise e ->
  pass E c dk st = (Raise e, called st).
Proof.
  intros Hq Hs. rewrite attempt_run. by rewrite Hq, Hs.
Qed.

Lemma pass_raises_stage (E : env Item QS) (c : config Item Q Key) (dk : loc)
  (st : state Item) (qs : QS) (e : exn Item) :
  call_result E (fetch_func c) (default [] (args c)) (default [] (kwargs c))
    (fetch_calls st) = Ok qs ->
  pipeline c qs = Raise e ->
  pass E c dk st = (Raise e, called st).
Proof.
  intros Hq Hp. apply (pass_raises_before_loop _ _ _ _ qs); [done|].
  unfold selected. by rewrite Hp.
Qed.

Lemma pass_raises_submit (E : env Item QS) (c : config Item Q Key) (dk : loc)
  (st : state Item) (qs : QS) (oi : nat * Item)
  (rest : stream Item (nat * Item)) (e : exn Item) :
  call_result E (fetch_func c) (default [] (args c)) (default [] (kwargs c))
    (fetch_calls st) = Ok qs ->
  selected c qs = SYield oi rest ->
  submit_fault E (submit_calls st) = Some e ->
  exists st', pass E c dk st = (Raise e, st').
Proof.
  intros Hq Hs Hf. rewrite attempt_run. rewrite Hq, Hs.
  simpl. unfold bind. rewrite loop_body_run. simpl. rewrite Hf. eauto.
Qed.

(** C9. The list [futures] is created once, before the loop: when [k]
    passes fail and pass [k + 1] completes, the call returns the pairs the
    failed passes appended, one for each job they submitted, followed by
    the pairs of all items of the pass that completed. *)
Theorem C9_failed_passes_leave_their_pairs (E : env Item QS)
  (c : config Item Q Key) (k : nat) (st stk : state Item) (qs : QS)
  (items : list (nat * Item)) :
  after_failures (pass E c (length (heap st))) k (start c st) = Some stk ->
  (forall i, i < k -> may_retry (max_tries c) (1 + i) = true) ->
  call_result E (fetch_func c) (default [] (args c)) (default [] (kwargs c))
    (fetch_calls stk) = Ok qs ->
  stream_items (selected c qs) = Some items ->
  (forall j, j < length items -> submit_fault E (submit_calls stk + j) = None) ->
  exists left,
    futures stk = pairs_from (length (pool st)) left
    /\ pool stk = pool st
         ++ map (fun oi => Download (download_params (download_kwargs c) oi)) left
    /\ forall extra, exists st',
         fetch_and_download E c (k + 1 + extra) st
         = Some (Ok (pairs_from (length (pool st)) left
                     ++ pairs_from (length (pool st) + length left) items), st').
Proof.
  intros Hk Hm Hq Hs Hno.
  destruct (after_failures_start E c k st stk Hk) as (Hdk & Hd & Hc & left & Hfu & Hp).
  exists left. split; [done|]. split; [done|]. intros extra.
  destruct (attempt_ok E c (length (heap st)) stk qs items Hdk Hq Hs Hno) as (st' & Hrun & Hg & _).
  exists st'. replace (k + 1 + extra) with (k + S extra) by lia.
  rewrite (fetch_and_download_skips E c k st stk Hk Hm).
  rewrite (retry_loop_returns _ _ _ _ _ _ _ Hrun).
  destruct Hg as (_ & Hfu' & _). rewrite Hfu', Hfu, Hp, length_app, length_map.
  done.
Qed.

(** C4, amended. If the pass that completes selects [N] items and no
    earlier pass of the call got a download submitted, then the call
    submits exactly [N] download jobs and returns [N] pairs, the [i]-th
    with the [i]-th selected item and the future of its job. *)
Theorem C4_one_job_and_one_pair_per_item (E : env Item QS)
  (c : config Item Q Key) (k : nat) (st stk : state Item) (qs : QS)
  (items : list (nat * Item)) :
  after_failures (pass E c (length (heap st))) k (start c st) = Some stk ->
  (forall i, i < k -> may_retry (max_tries c) (1 + i) = true) ->
  pool stk = pool st ->
  call_result E (fetch_func c) (default [] (args c)) (default [] (kwargs c))
    (fetch_calls stk) = Ok qs ->
  stream_items (selected c qs) = Some items ->
  (forall j, j < length items -> submit_fault E (submit_calls stk + j) = None) ->
  forall extra, exists l st',
    fetch_and_download E c (k + 1 + extra) st = Some (Ok l, st')
    /\ length l = length items
    /\ map fst l = map snd items
    /\ map snd l = seq (length (pool st)) (length items)
    /\ pool st' = pool st
         ++ map (fun oi => Download (download_params (download_kwargs c) oi)) items.
Proof.
  intros Hk Hm Hpool Hq Hs Hno extra.
  destruct (after_failures_start E c k st stk Hk) as (Hdk & Hd & Hc & left & Hfu & Hp).
  assert (left = []) as ->.
  { rewrite Hpool in Hp. apply (f_equal length) in Hp.
    rewrite length_app, length_map in Hp. destruct left; [done | simpl in Hp; lia]. }
  destruct (attempt_ok E c (length (heap st)) stk qs items Hdk Hq Hs Hno) as (st' & Hrun & Hg & _).
  exists (pairs_from (length (pool st)) items), st'.
  replace (k + 1 + extra) with (k + S extra) by lia.
  rewrite (fetch_and_download_skips E c k st stk Hk Hm).
  rewrite (retry_loop_returns _ _ _ _ _ _ _ Hrun).
  destruct Hg as (Hp' & Hfu' & _). rewrite Hfu', Hfu, Hpool. simpl.
  split; [done|]. split; [apply pairs_from_length|].
  split; [apply pairs_from_items|]. split; [apply pairs_from_futures|].
  by rewrite Hp', Hpool, Hd.
Qed.


Lemma first_pass_completes (E : env Item QS) (c : config Item Q Key)
  (st : state Item) (qs : QS) (items : list (nat * Item)) :
  call_result E (fetch_func c) (default [] (args c)) (default [] (kwargs c))
    (fetch_calls st) = Ok qs ->
  stream_items (selected c qs) = Some items ->
  (forall j, j < length items -> submit_fault E (submit_calls st + j) = None) ->
  forall extra, exists st',
    fetch_and_download E c (1 + extra) st
    = Some (Ok (pairs_from (length (pool st)) items), st')
    /\ pool st' = pool st
         ++ map (fun oi => Download (download_params (download_kwargs c) oi)) items
    /\ log st' = log st
         ++ observer_log (submit_download_callback c) (download_kwargs c)
              (length (pool st)) items
    /\ heap st' !! length (heap st) = Some (download_kwargs c)
    /\ fetch_calls st' = S (fetch_calls st).
Proof.
  intros Hq Hs Hno extra. destruct (start_heap c st) as [Hdk Hd].
  destruct (attempt_ok E c (length (heap st)) (start c st) qs items Hdk Hq Hs Hno)
    as (st' & Hrun & Hg & Hc & _ & Hl).
  exists st'. rewrite fetch_and_download_start.
  change (1 + extra) with (S extra).
  rewrite (retry_loop_returns _ _ _ _ _ _ _ Hrun).
  destruct (grows_heap _ _ _ _ Hdk Hg) as [Hd' _].
  destruct Hg as (Hp & Hfu & _). rewrite Hd in Hp, Hl.
  rewrite Hfu. split; [done|]. split; [done|]. split; [done|].
  split; [by rewrite Hd' | done].
Qed.

Lemma observer_log_raising (g : callback Item) (d : gmap string (value Item)) (n : nat)
  (l : list (nat * Item)) :
  (forall f d', exists e, snd (g f d') = Some e) ->
  length (observer_log (Some g) d n l) = length l.
Proof.
  intros Hg. revert n. induction l as [|a l IH]; intros n; [done|].
  rewrite observer_log_cons, length_app, IH. simpl.
  destruct (Hg n (download_params d a)) as [e He].
  destruct (g n (download_params d a)) as [d' [e'|]]; simpl in *; [done | congruence].
Qed.

(** C8. An observer that raises on every invocation changes nothing for
    the caller: all [N] download jobs are submitted and the call returns
    its [N] pairs; the observer's [N] exceptions end up in the log. *)
Theorem C8_observer_failures_are_swallowed (E : env Item QS)
  (c : config Item Q Key) (g : callback Item) (st : state Item) (qs : QS)
  (items : list (nat * Item)) :
  submit_download_callback c = Some g ->
  (forall f d, exists e, snd (g f d) = Some e) ->
  call_result E (fetch_func c) (default [] (args c)) (default [] (kwargs c))
    (fetch_calls st) = Ok qs ->
  stream_items (selected c qs) = Some items ->
  (forall j, j < length items -> submit_fault E (submit_calls st + j) = None) ->
  forall extra, exists st',
    fetch_and_download E c (1 + extra) st
    = Some (Ok (pairs_from (length (pool st)) items), st')
    /\ pool st' = pool st
         ++ map (fun oi => Download (download_params (download_kwargs c) oi)) items
    /\ log st' = log st
         ++ observer_log (Some g) (download_kwargs c) (length (pool st)) items
    /\ length (log st') = length (log st) + length items.
Proof.
  intros Hcb Hg Hq Hs Hno extra.
  destruct (first_pass_completes E c st qs items Hq Hs Hno extra)
    as (st' & Hrun & Hp & Hl & _).
  exists st'. rewrite Hcb in Hl.
  split; [done|]. split; [done|]. split; [done|].
  by rewrite Hl, length_app, observer_log_raising.
Qed.

Lemma download_params_lookup (d : gmap string (value Item)) (oi : nat * Item) :
  download_params d oi !! "illust" = Some (VIllust (snd oi))
  /\ (naming_hint_supplied d = true ->
      download_params d oi !! "addition_naming_info" = d !! "addition_naming_info")
  /\ (naming_hint_supplied d = false ->
      download_params d oi !! "addition_naming_info"
      = Some (VDict [("order", VInt (Z.of_nat (fst oi)))]))
  /\ (forall k, k <> "illust" -> k <> "addition_naming_info" ->
      download_params d oi !! k = d !! k).
Proof.
  unfold download_params.
  destruct (naming_hint_supplied d); repeat split; try done; intros;
    by simplify_map_eq.
Qed.

(** C6. Every job submitted for an enumerated pair gets the caller's
    keyword arguments with the illust stored under ['illust'], and with
    [{'order': order}] stored under ['addition_naming_info'] exactly when
    the caller supplied no naming hint; every other key is as the caller
    gave it, and the caller's gmap string (value Item) is the same after the call. *)
Theorem C6_download_parameters (E : env Item QS) (c : config Item Q Key)
  (st : state Item) (qs : QS) (items : list (nat * Item)) :
  call_result E (fetch_func c) (default [] (args c)) (default [] (kwargs c))
    (fetch_calls st) = Ok qs ->
  stream_items (selected c qs) = Some items ->
  (forall j, j < length items -> submit_fault E (submit_calls st + j) = None) ->
  forall extra, exists l st',
    fetch_and_download E c (1 + extra) st = Some (Ok l, st')
    /\ pool st' = pool st
         ++ map (fun oi => Download (download_params (download_kwargs c) oi)) items
    /\ heap st' !! length (heap st) = Some (download_kwargs c)
    /\ forall oi,
         let d := download_kwargs c in
         let params := download_params d oi in
         params !! "illust" = Some (VIllust (snd oi))
         /\ (naming_hint_supplied d = true ->
             params !! "addition_naming_info" = d !! "addition_naming_info")
         /\ (naming_hint_supplied d = false ->
             params !! "addition_naming_info"
             = Some (VDict [("order", VInt (Z.of_nat (fst oi)))]))
         /\ (forall k, k <> "illust" -> k <> "addition_naming_info" ->
             params !! k = d !! k).
Proof.
  intros Hq Hs Hno extra.
  destruct (first_pass_completes E c st qs items Hq Hs Hno extra)
    as (st' & Hrun & Hp & _ & Hd & _).
  exists (pairs_from (length (pool st)) items), st'.
  split; [done|]. split; [done|]. split; [done|].
  intros oi. apply download_params_lookup.
Qed.

(** C7, amended. [str] of a [FunctionCall] is the name, an opening
    parenthesis, the [repr] of the positional arguments followed by
    [key=repr] of the keyword arguments, all joined with [', '], and a
    closing parenthesis, the arguments' [repr] not being empty; with no
    argument at all it is the name followed by [()]. *)
Theorem C7_str_renders_the_call {V : Type} (repr : value V -> string)
  (c : FunctionCall.t V) :
  (forall v, In v (FunctionCall.args c) -> repr v <> ""%string) ->
  FunctionCall.__str__ repr c
  = (FunctionCall.function_name (FunctionCall.fn c) ++ "("
     ++ FunctionCall.join
          (map repr (FunctionCall.args c)
           ++ map (FunctionCall.kwarg_str repr) (FunctionCall.kwargs c))
     ++ ")")%string
  /\ (FunctionCall.args c = [] -> FunctionCall.kwargs c = [] ->
      FunctionCall.__str__ repr c
      = (FunctionCall.function_name (FunctionCall.fn c) ++ "()")%string).
Proof.
  intros Hrepr. unfold FunctionCall.__str__.
  rewrite parameter_str_join by done. split; [done|].
  by intros -> ->.
Qed.

End Proofs.

(** ** The order of the stages *)

Lemma selected_in_fixed_order {Item : Type}
  (c : config Item (Item -> bool) (Item -> Z)) (s : stream Item Item) :
  (forall n, limit_before c = Some n -> (0 <= n)%Z) ->
  (forall n, limit_after c = Some n -> (0 <= n)%Z) ->
  filter_q c = None \/ exclude_q c = None ->
  selected c s = in_fixed_order c s.
Proof.
  intros Hb Ha Hfe. unfold selected, pipeline, in_fixed_order.
  destruct (order_by c) as [keys|], (limit_before c) as [nb|],
    (filter_q c) as [p|], (exclude_q c) as [q|], (limit_after c) as [na|];
    try (destruct Hfe; discriminate); simpl; unfold LazyQS.limit;
    try (replace (nb <? 0)%Z with false
           by (symmetry; apply Z.ltb_ge; by apply Hb));
    simpl; unfold LazyQS.limit;
    try (replace (na <? 0)%Z with false
           by (symmetry; apply Z.ltb_ge; by apply Ha));
    reflexivity.
Qed.

(** C5. The loop runs over the fetched items put through the stages in
    the fixed order orderBy, limit(before), filter or exclude,
    limit(after), enumerate from 1: a call whose first pass completes
    submits the jobs and returns the pairs of exactly the items that
    order gives (limits not negative, one of the two predicates at
    most). So with [A, B, C, D, E] fetched, [limit_before = 3], an
    [exclude_q] that holds of [C] and not of [A] and [B], and
    [limit_after = 2], these are [(1, A)] and [(2, B)]. *)
Theorem C5_limit_exclude_limit {Item : Type} (E : env Item (stream Item Item))
  (c : config Item (Item -> bool) (Item -> Z)) (st : state Item)
  (qs : stream Item Item) (items : list (nat * Item)) :
  (forall n, limit_before c = Some n -> (0 <= n)%Z) ->
  (forall n, limit_after c = Some n -> (0 <= n)%Z) ->
  filter_q c = None \/ exclude_q c = None ->
  call_result E (fetch_func c) (default [] (args c)) (default [] (kwargs c))
    (fetch_calls st) = Ok qs ->
  stream_items (in_fixed_order c qs) = Some items ->
  (forall j, j < length items -> submit_fault E (submit_calls st + j) = None) ->
  (forall extra, exists st',
      fetch_and_download E c (1 + extra) st
      = Some (Ok (pairs_from (length (pool st)) items), st')
      /\ pool st' = pool st
           ++ map (fun oi => Download (download_params (download_kwargs c) oi))
                items)
  /\ (forall (A B C D E' : Item) (isC : Item -> bool),
        isC A = false -> isC B = false -> isC C = true ->
        order_by c = None -> limit_before c = Some 3%Z -> filter_q c = None ->
        exclude_q c = Some isC -> limit_after c = Some 2%Z ->
        qs = stream_of_list [A; B; C; D; E'] ->
        items = [(1, A); (2, B)]).
Proof.
  intros Hb Ha Hfe Hq Hs Hno. split.
  - intros extra. rewrite <- selected_in_fixed_order in Hs by done.
    destruct (first_pass_completes E c st qs items Hq Hs Hno extra)
      as (st' & Hrun & Hp & _).
    by exists st'.
  - intros A B C D E' isC HA HB HC Ho Hlb Hf He Hla ->.
    unfold in_fixed_order in Hs. rewrite Ho, Hlb, Hf, He, Hla in Hs.
    simpl in Hs. rewrite HA, HB, HC in Hs. simpl in Hs. by injection Hs as <-.
Qed.

Lemma C5_witness :
  (forall extra, exists st',
      fetch_and_download (ex_flaky 0 ["A"; "B"; "C"; "D"; "E"]%string) ex_scenario
        (1 + extra) ex_state
      = Some (Ok [("A"%string, 0); ("B"%string, 1)], st')
      /\ pool st' = [] ++ [Download (download_params ∅ (1, "A"%string));
                           Download (download_params ∅ (2, "B"%string))])
  /\ (forall (A B C D E' : string) (isC : string -> bool),
        isC A = false -> isC B = false -> isC C = true ->
        order_by ex_scenario = None -> limit_before ex_scenario = Some 3%Z ->
        filter_q ex_scenario = None -> exclude_q ex_scenario = Some isC ->
        limit_after ex_scenario = Some 2%Z ->
        (stream_of_list ["A"; "B"; "C"; "D"; "E"]%string : stream string string)
        = stream_of_list [A; B; C; D; E'] ->
        [(1, "A"%string); (2, "B"%string)] = [(1, A); (2, B)]).
Proof.
  apply (C5_limit_exclude_limit (ex_flaky 0 ["A"; "B"; "C"; "D"; "E"]%string)
           ex_scenario ex_state (stream_of_list ["A"; "B"; "C"; "D"; "E"]%string)
           [(1, "A"%string); (2, "B"%string)]).
  - intros n [= <-]. lia.
  - intros n [= <-]. lia.
  - by left.
  - reflexivity.
  - reflexivity.
  - reflexivity.
Defined.

(** The order matters: with the limit of three applied after the
    exclusion instead of before it, [D] would come through. *)
Example limit_before_comes_first :
  stream_items
    (selected (Config ex_fetch None None None None None (Some 3%Z) None
                 (Some (String.eqb "C")) None ∅ : config string _ (string -> Z))
       (stream_of_list ["A"; "B"; "C"; "D"; "E"]%string))
  = Some [(1, "A"%string); (2, "B"%string)]
  /\ stream_items
       (selected (Config ex_fetch None None None None None None None
                    (Some (String.eqb "C")) (Some 3%Z) ∅ : config string _ (string -> Z))
          (stream_of_list ["A"; "B"; "C"; "D"; "E"]%string))
     = Some [(1, "A"%string); (2, "B"%string); (3, "D"%string)].
Proof. split; reflexivity. Qed.

(** C1. With both predicates set, [exclude] is called on what [filter]
    returned; it is not skipped. On the items [A, B], with a filter that
    every item passes and an exclusion of [A], the call selects [B]
    alone, and [A] and [B] when only the filter is set. *)
Theorem C1_exclude_applied_after_filter :
  (forall (Item Q Key QS : Type) (H : QuerySet Item Q Key QS) (qs : QS)
          (p q : Q) (f : callable) (m : option Z) (cb : option (callback Item))
          (d : gmap string (value Item)),
      pipeline (Config f None None m cb None None (Some p) (Some q) None d) qs
      = res_bind (qs_filter p qs) (qs_exclude q))
  /\ (exists st',
        fetch_and_download (ex_flaky 0 ["A"; "B"]%string)
          (ex_filtering (Some (String.eqb "A"))) 1 ex_state
        = Some (Ok [("B"%string, 0)], st'))
  /\ (exists st',
        fetch_and_download (ex_flaky 0 ["A"; "B"]%string)
          (ex_filtering None) 1 ex_state
        = Some (Ok [("A"%string, 0); ("B"%string, 1)], st')).
Proof.
  split.
  - intros. unfold pipeline. simpl.
    destruct (qs_filter p qs) as [qs1|e]; [|done]. simpl.
    by destruct (qs_exclude q qs1).
  - split; eexists; vm_compute; reflexivity.
Qed.

(** C4 as stated fails. The first result of the fetch breaks after its
    first item, so the first pass submits one job and raises; the second
    fetch returns [A, B], the pipeline yields these two items and the
    pass completes: the call returns three pairs, for three jobs. *)
Lemma C4_counterexample :
  selected (ex_config (Some 2%Z)) (stream_of_list ["A"; "B"]%string)
  = SYield (1, "A"%string) (SYield (2, "B"%string) SEnd)
  /\ exists st',
       fetch_and_download ex_breaking (ex_config (Some 2%Z)) 2 ex_state
       = Some (Ok [("A"%string, 0); ("A"%string, 1); ("B"%string, 2)], st')
       /\ length (pool st') = 3.
Proof.
  split; [reflexivity|]. eexists. split; vm_compute; reflexivity.
Qed.

(** C7 as stated fails: without arguments the text still ends in an
    empty pair of parentheses. *)
Lemma C7_counterexample :
  FunctionCall.__str__ ex_repr (FunctionCall.Build ex_fetch [] []) = "fetch()"%string
  /\ FunctionCall.describe_spec ex_repr (FunctionCall.Build ex_fetch [] [])
     = "fetch"%string
  /\ FunctionCall.__str__ ex_repr (FunctionCall.Build ex_fetch [] [])
     <> FunctionCall.describe_spec ex_repr (FunctionCall.Build ex_fetch [] []).
Proof. repeat split; done. Qed.

Lemma C7_witness :
  FunctionCall.__str__ ex_repr (fetch_of ex_search) = "fetch(7, tag='cat')"%string
  /\ (FunctionCall.args (fetch_of ex_search) = [] ->
      FunctionCall.kwargs (fetch_of ex_search) = [] ->
      FunctionCall.__str__ ex_repr (fetch_of ex_search) = "fetch()"%string).
Proof.
  apply (C7_str_renders_the_call ex_repr (fetch_of ex_search)).
  intros v [<-|[]]. discriminate.
Defined.

Lemma C2_witness :
  (forall extra, exists st',
      fetch_and_download (ex_flaky 2 ["A"; "B"]%string)
        (with_max_tries (Some (Z.of_nat 2 + 1)%Z) (ex_config None))
        (2 + 1 + extra) ex_state
      = Some (Ok [("A"%string, 0); ("B"%string, 1)], st')
      /\ fetch_calls st' = 0 + (2 + 1))
  /\ (1 <= 2 -> forall extra, exists st',
        fetch_and_download (ex_flaky 2 ["A"; "B"]%string)
          (with_max_tries (Some (Z.of_nat 2)) (ex_config None)) (2 + extra) ex_state
        = Some (Raise (set_fetch_call (Exn "ConnectionError" None)
                         (fetch_of (ex_config None))), st')
        /\ fetch_calls st' = 0 + 2).
Proof.
  apply (C2_retry_until_fetch_succeeds (ex_flaky 2 ["A"; "B"]%string)
           (ex_config None) 2 (fun _ => Exn "ConnectionError" None)
           (stream_of_list ["A"; "B"]%string)
           [(1, "A"%string); (2, "B"%string)] ex_state).
  - intros [|[|i]] Hi; [reflexivity | reflexivity | lia].
  - reflexivity.
  - reflexivity.
  - reflexivity.
Defined.

Lemma C3_witness :
    fetch_and_download (ex_flaky 5 ["A"]%string) ex_search (2 + 0) ex_state
    = Some (Raise (set_fetch_call (Exn "ConnectionError" None) (fetch_of ex_search)),
            State 2 0 [] [∅] [] [])
    /\ fetch_call (set_fetch_call (Exn "ConnectionError" None) (fetch_of ex_search))
       = Some (fetch_of ex_search)
    /\ exn_what (set_fetch_call (Exn "ConnectionError" None) (fetch_of ex_search))
       = "ConnectionError"%string
    /\ FunctionCall.__str__ ex_repr (fetch_of ex_search)
       = "fetch(7, tag='cat')"%string.
Proof.
  refine (C3_exhaustion_reraises_with_fetch_call (ex_flaky 5 ["A"]%string)
            ex_search ex_repr 2%Z 1 ex_state (State 1 0 [] [∅] [] [])
            (State 2 0 [] [∅] [] []) (Exn "ConnectionError" None) _ _ _ _ _ 0).
  - reflexivity.
  - reflexivity.
  - reflexivity.
  - reflexivity.
  - intros v [<-|[]]. discriminate.
Defined.

Lemma C4_witness :
  exists l st',
    fetch_and_download (ex_flaky 1 ["A"; "B"]%string) (ex_config (Some 3%Z))
      (1 + 1 + 0) ex_state = Some (Ok l, st')
    /\ length l = 2
    /\ map fst l = ["A"; "B"]%string
    /\ map snd l = [0; 1]
    /\ pool st' = [Download (download_params ∅ (1, "A"%string));
                   Download (download_params ∅ (2, "B"%string))].
Proof.
  refine (C4_one_job_and_one_pair_per_item (ex_flaky 1 ["A"; "B"]%string)
            (ex_config (Some 3%Z)) 1 ex_state (State 1 0 [] [∅] [] [])
            (stream_of_list ["A"; "B"]%string)
            [(1, "A"%string); (2, "B"%string)] _ _ _ _ _ _ 0).
  - reflexivity.
  - intros [|i] Hi; [reflexivity | lia].
  - reflexivity.
  - reflexivity.
  - reflexivity.
  - reflexivity.
Defined.

Lemma C6_witness :
  exists l st',
    fetch_and_download (ex_flaky 0 ["A"]%string) (ex_observed None) (1 + 0)
      ex_state = Some (Ok l, st')
    /\ pool st' = [Download (download_params {["directory" := VStr "out"]}
                               (1, "A"%string))]
    /\ heap st' !! 0 = Some ({["directory" := VStr "out"]} : gmap string (value string))
    /\ forall oi : nat * string,
         let d : gmap string (value string) := {["directory" := VStr "out"]} in
         let params := download_params d oi in
         params !! "illust"%string = Some (VIllust (snd oi))
         /\ (naming_hint_supplied d = true ->
             params !! "addition_naming_info"%string
             = d !! "addition_naming_info"%string)
         /\ (naming_hint_supplied d = false ->
             params !! "addition_naming_info"%string
             = Some (VDict [("order"%string, VInt (Z.of_nat (fst oi)))]))
         /\ (forall k : string, k <> "illust"%string ->
             k <> "addition_naming_info"%string -> params !! k = d !! k).
Proof.
  refine (C6_download_parameters (ex_flaky 0 ["A"]%string) (ex_observed None)
            ex_state (stream_of_list ["A"]%string) [(1, "A"%string)] _ _ _ 0).
  - reflexivity.
  - reflexivity.
  - reflexivity.
Defined.

Lemma C8_witness :
  exists st',
    fetch_and_download (ex_flaky 0 ["A"; "B"]%string)
      (ex_observed (Some ex_raising)) (1 + 0) ex_state
    = Some (Ok [("A"%string, 0); ("B"%string, 1)], st')
    /\ pool st'
       = [Download (download_params {["directory" := VStr "out"]} (1, "A"%string));
          Download (download_params {["directory" := VStr "out"]} (2, "B"%string))]
    /\ log st' = [Exn "ObserverError" None; Exn "ObserverError" None]
    /\ length (log st') = 0 + 2.
Proof.
  refine (C8_observer_failures_are_swallowed (ex_flaky 0 ["A"; "B"]%string)
            (ex_observed (Some ex_raising)) ex_raising ex_state
            (stream_of_list ["A"; "B"]%string)
            [(1, "A"%string); (2, "B"%string)] _ _ _ _ _ 0).
  - reflexivity.
  - intros f d. by exists (Exn "ObserverError" None).
  - reflexivity.
  - reflexivity.
  - reflexivity.
Defined.

(** The pass that broke left the pair of its first item behind. *)
Example broken_pass_leaves_a_pair :
  futures ex_after_break = [("A"%string, 0)]
  /\ length (pool ex_after_break) = 1.
Proof. split; vm_compute; reflexivity. Qed.

Lemma C9_witness :
  exists left,
    futures ex_after_break = pairs_from 0 left
    /\ pool ex_after_break
       = [] ++ map (fun oi => Download (download_params ∅ oi)) left
    /\ forall extra, exists st',
         fetch_and_download ex_breaking (ex_config (Some 2%Z)) (1 + 1 + extra)
           ex_state
         = Some (Ok (pairs_from 0 left
                     ++ pairs_from (0 + length left)
                          [(1, "A"%string); (2, "B"%string)]), st').
Proof.
  apply (C9_failed_passes_leave_their_pairs ex_breaking (ex_config (Some 2%Z)) 1
           ex_state ex_after_break (stream_of_list ["A"; "B"]%string)
           [(1, "A"%string); (2, "B"%string)]).
  - reflexivity.
  - intros [|i] Hi; [reflexivity | lia].
  - reflexivity.
  - reflexivity.
  - reflexivity.
Defined.

(** With an executor that takes no job, both passes fail in the download
    submission, and the exception raised in the end carries the fetch
    call. *)
Example shutdown_run_raises_with_fetch_call :
  option_map
    (fun r => (fst r, fetch_calls (snd r), pool (snd r)))
    (fetch_and_download (ex_shutdown ["A"]%string) (ex_config (Some 2%Z)) 2 ex_state)
  = Some (Raise (Exn "RuntimeError" (Some (fetch_of (ex_config (Some 2%Z))))), 2, []).
Proof. vm_compute. reflexivity. Qed.

Lemma C10_witness :
  fetch_calls ex_after_shutdown = 0 + 1
  /\ (forall fuel,
        fetch_and_download_except ex_is_Exception (ex_shutdown ["A"]%string)
          (ex_config (Some 2%Z)) (1 + fuel) ex_state
        = retry_except ex_is_Exception (ex_shutdown ["A"]%string)
            (ex_config (Some 2%Z)) 0 fuel (1 + 1) ex_after_shutdown)
  /\ (forall e st',
        pass (ex_shutdown ["A"]%string) (ex_config (Some 2%Z)) 0
          ex_after_shutdown = (Raise e, st') ->
        fetch_calls st' = 0 + (1 + 1)
        /\ (ex_is_Exception e = true ->
            may_retry (Some 2%Z) (1 + 1) = false ->
            forall extra,
              fetch_and_download_except ex_is_Exception (ex_shutdown ["A"]%string)
                (ex_config (Some 2%Z)) (1 + 1 + extra) ex_state
              = Some (Raise (set_fetch_call e (fetch_of (ex_config (Some 2%Z)))),
                      st')
              /\ fetch_call (set_fetch_call e (fetch_of (ex_config (Some 2%Z))))
                 = Some (fetch_of (ex_config (Some 2%Z)))
              /\ exn_what (set_fetch_call e (fetch_of (ex_config (Some 2%Z))))
                 = exn_what e)
        /\ (ex_is_Exception e = false ->
            forall extra,
              fetch_and_download_except ex_is_Exception (ex_shutdown ["A"]%string)
                (ex_config (Some 2%Z)) (1 + 1 + extra) ex_state
              = Some (Raise e, st'))).
Proof.
  apply (C10_every_Exception_is_retried ex_is_Exception
           (ex_shutdown ["A"]%string) (ex_config (Some 2%Z)) 1 ex_state
           ex_after_shutdown).
  - reflexivity.
  - intros [|i] Hi; [reflexivity | lia].
Defined.

(** With classes too, an executor that takes no job makes both passes
    fail in the download submission, and the RuntimeError raised in the
    end carries the fetch call. *)
Example shutdown_run_with_classes :
  option_map
    (fun r => (fst r, fetch_calls (snd r), pool (snd r)))
    (fetch_and_download_except ex_is_Exception (ex_shutdown ["A"]%string)
       (ex_config (Some 2%Z)) 2 ex_state)
  = Some (Raise (Exn "RuntimeError" (Some (fetch_of (ex_config (Some 2%Z))))), 2, []).
Proof. vm_compute. reflexivity. Qed.

(** C10 as stated fails: a SystemExit raised in the fetch call is not
    caught. With five tries allowed the call ends in the first pass,
    after one invocation of the fetch function, and what it raises has no
    [fetch_call]. *)
Lemma C10_counterexample :
  fetch_and_download_except ex_is_Exception ex_exiting (ex_config (Some 5%Z))
    5 ex_state
  = Some (Raise (Exn "SystemExit" None), State 1 0 [] [∅] [] [])
  /\ may_retry (max_tries (ex_config (Some 5%Z))) 1 = true
  /\ fetch_call (Exn "SystemExit" None : exn string) = None.
Proof. split; [vm_compute; reflexivity | done]. Qed.

(** ** How a call ends *)

Section Ends.
Context {Item Q Key QS : Type} `{!QuerySet Item Q Key QS}.

Lemma retry_ends (E : env Item QS) (c : config Item Q Key) (dk : loc)
  (fuel tries : nat) (st st' : state Item)
  (r : res Item (list (Item * future))) :
  dk < length (heap st) ->
  retry E c dk fuel tries st = Some (r, st') ->
  exists its n,
    grows dk its st st'
    /\ fetch_calls st' = fetch_calls st + S n
    /\ n < fuel
    /\ (forall i, i < n -> may_retry (max_tries c) (tries + i) = true)
    /\ match r with
       | Ok l => l = futures st'
       | Raise e =>
           fetch_call e = Some (fetch_of c)
           /\ may_retry (max_tries c) (tries + n) = false
       end.
Proof.
  revert tries st. induction fuel as [|fuel IH]; intros tries st Hdk Hrun; [done|].
  unfold retry in Hrun. simpl in Hrun.
  change (attempt E c (fetch_of c) dk _ st) with (pass E c dk st) in Hrun.
  destruct (pass E c dk st) as [[[]|e] st1] eqn:Hp.
  - injection Hrun as <- <-.
    destruct (attempt_grows E c dk _ _ _ Hdk Hp) as (its & Hg & Hc).
    exists its, 0. split; [done|]. split; [lia|]. split; [lia|].
    split; [intros i Hi; lia | done].
  - destruct (attempt_grows E c dk _ _ _ Hdk Hp) as (its & Hg & Hc).
    destruct (may_retry (max_tries c) tries) eqn:Hm.
    + destruct (grows_heap _ _ _ _ Hdk Hg) as [_ Hdk1].
      change (retry_loop E c (fetch_of c) dk _ fuel (S tries) st1)
        with (retry E c dk fuel (S tries) st1) in Hrun.
      destruct (IH (S tries) st1 Hdk1 Hrun) as (its' & n & Hg' & Hc' & Hn & Hm' & Hr).
      exists (its ++ its'), (S n). split; [by eapply grows_trans|].
      split; [lia|]. split; [lia|]. split.
      * intros [|i] Hi; [by rewrite Nat.add_0_r|].
        replace (tries + S i) with (S tries + i) by lia. apply Hm'. lia.
      * destruct r as [l|e']; [done|].
        by replace (tries + S n) with (S tries + n) by lia.
    + injection Hrun as <- <-. exists its, 0.
      split; [done|]. split; [lia|]. split; [lia|].
      split; [intros i Hi; lia|]. split; [done | by rewrite Nat.add_0_r].
Qed.

Lemma fetch_and_download_ends (E : env Item QS) (c : config Item Q Key)
  (fuel : nat) (st st' : state Item) (r : res Item (list (Item * future))) :
  fetch_and_download E c fuel st = Some (r, st') ->
  exists its n,
    pool st' = pool st
      ++ map (fun oi => Download (download_params (download_kwargs c) oi)) its
    /\ futures st' = pairs_from (length (pool st)) its
    /\ (exists hs, heap st' = heap st ++ download_kwargs c :: hs)
    /\ (exists ls, log st' = log st ++ ls)
    /\ fetch_calls st' = fetch_calls st + S n
    /\ n < fuel
    /\ (forall i, i < n -> may_retry (max_tries c) (1 + i) = true)
    /\ match r with
       | Ok l => l = futures st'
       | Raise e =>
           fetch_call e = Some (fetch_of c)
           /\ may_retry (max_tries c) (1 + n) = false
       end.
Proof.
  rewrite fetch_and_download_start. intros Hrun.
  destruct (start_heap c st) as [Hdk Hd].
  destruct (retry_ends E c _ _ _ _ _ _ Hdk Hrun) as (its & n & Hg & Hc & Hn & Hm & Hr).
  exists its, n. destruct Hg as (Hp & Hfu & [hs Hh] & Hl & _).
  rewrite Hd in Hp. simpl in *.
  split; [done|]. split; [done|]. split.
  { exists hs. by rewrite Hh, <- app_assoc. }
  done.
Qed.


Lemma retry_except_unbounded (isx : exn Item -> bool) (E : env Item QS)
  (c : config Item Q Key) (dk : loc) (fuel tries : nat) (st st' : state Item)
  (e : exn Item) :
  max_tries c = None ->
  retry_except isx E c dk fuel tries st = Some (Raise e, st') ->
  isx e = false /\ exists st1, pass E c dk st1 = (Raise e, st').
Proof.
  intros Hm. revert tries st.
  induction fuel as [|fuel IH]; intros tries st Hrun; [done|].
  unfold retry_except in Hrun. simpl in Hrun.
  change (attempt E c (fetch_of c) dk _ st) with (pass E c dk st) in Hrun.
  destruct (pass E c dk st) as [[[]|e0] st1] eqn:Hp; [done|].
  destruct (isx e0) eqn:He.
  - rewrite Hm in Hrun. simpl in Hrun. by apply (IH (S tries) st1).
  - injection Hrun as <- <-. split; [done|]. by exists st.
Qed.

(** X1. Without a bound on the tries the call never raises an instance
    of [Exception]: such a failure always leads to another pass. What
    comes out of the call, if anything is raised, is no instance of
    [Exception], and is the very object a pass raised. *)
Theorem X1_unbounded_raises_no_Exception (is_Exception : exn Item -> bool)
  (E : env Item QS) (c : config Item Q Key) (fuel : nat) (st st' : state Item)
  (e : exn Item) :
  max_tries c = None ->
  fetch_and_download_except is_Exception E c fuel st = Some (Raise e, st') ->
  is_Exception e = false
  /\ exists st1, pass E c (length (heap st)) st1 = (Raise e, st').
Proof.
  intros Hm Hrun. by apply (retry_except_unbounded _ E c _ fuel 1 (start c st)).
Qed.

(** X2. Without a bound on the tries and with a fetch function that
    raises on every invocation, the call neither returns nor raises,
    however many passes it is given. *)
Theorem X2_unbounded_loops_while_fetch_fails (E : env Item QS)
  (c : config Item Q Key) (errs : nat -> exn Item) (st : state Item) :
  max_tries c = None ->
  (forall i,
     call_result E (fetch_func c) (default [] (args c)) (default [] (kwargs c))
       (fetch_calls st + i) = Raise (errs i)) ->
  forall fuel, fetch_and_download E c fuel st = None.
Proof.
  intros Hm Hfail fuel. rewrite fetch_and_download_start.
  rewrite <- (Nat.add_0_r fuel).
  erewrite retry_loop_skips.
  - reflexivity.
  - apply (after_fetch_failures E c _ errs fuel (start c st)).
    intros i _. apply Hfail.
  - intros i _. by rewrite Hm.
Qed.

(** X3. A call that ends with [max_tries = m] has invoked the fetch
    function at least once and at most [max m 1] times. *)
Theorem X3_fetch_invocations_bounded (E : env Item QS) (c : config Item Q Key)
  (m : Z) (fuel : nat) (st st' : state Item)
  (r : res Item (list (Item * future))) :
  max_tries c = Some m ->
  fetch_and_download E c fuel st = Some (r, st') ->
  fetch_calls st < fetch_calls st'
  /\ (Z.of_nat (fetch_calls st' - fetch_calls st) <= Z.max m 1)%Z.
Proof.
  intros Hm Hrun.
  destruct (fetch_and_download_ends E c fuel st st' _ Hrun)
    as (its & n & _ & _ & _ & _ & Hc & _ & Hre & _).
  split; [lia|]. rewrite Hc.
  destruct n as [|n]; [lia|].
  specialize (Hre n (Nat.lt_succ_diag_r n)). rewrite Hm in Hre. simpl in Hre.
  apply Z.ltb_lt in Hre. lia.
Qed.

Lemma retry_loop_one_try (E : env Item QS) (c : config Item Q Key) (m : Z)
  (f : FunctionCall.t Item) (dk : loc)
  (cb : option (future -> loc -> M unit)) (fuel tries : nat) (st : state Item) :
  (m <= 1)%Z -> 1 <= tries ->
  retry_loop E (with_max_tries (Some m) c) f dk cb fuel tries st
  = retry_loop E (with_max_tries (Some 1%Z) c) f dk cb fuel tries st.
Proof.
  intros Hm. revert tries st. induction fuel as [|fuel IH]; intros tries st Ht; [done|].
  simpl.
  change (attempt E (with_max_tries (Some m) c) f dk cb st)
    with (attempt E (with_max_tries (Some 1%Z) c) f dk cb st).
  destruct (attempt E (with_max_tries (Some 1%Z) c) f dk cb st) as [[[]|e] st1]; [done|].
  replace (Z.of_nat tries <? m)%Z with false by (symmetry; apply Z.ltb_ge; lia).
  by replace (Z.of_nat tries <? 1)%Z with false by (symmetry; apply Z.ltb_ge; lia).
Qed.

(** X4. A bound of zero or less is a bound of one: the call still makes
    its one pass, returns if it completes and raises if it does not. *)
Theorem X4_bound_below_one_is_one (E : env Item QS) (c : config Item Q Key)
  (m : Z) (fuel : nat) (st : state Item) :
  (m <= 1)%Z ->
  fetch_and_download E (with_max_tries (Some m) c) fuel st
  = fetch_and_download E (with_max_tries (Some 1%Z) c) fuel st.
Proof.
  intros Hm. unfold fetch_and_download. simpl.
  by apply retry_loop_one_try.
Qed.

(** X5. In the list a call returns, every pair holds an illust and the
    future of a download job for that very illust, submitted by this
    call; the futures are those of the jobs the call submitted, in the
    order of submission, one pair for each job. *)
Theorem X5_pairs_hold_their_own_jobs (E : env Item QS) (c : config Item Q Key)
  (fuel : nat) (st st' : state Item) (l : list (Item * future)) :
  fetch_and_download E c fuel st = Some (Ok l, st') ->
  map snd l = seq (length (pool st)) (length l)
  /\ length (pool st') = length (pool st) + length l
  /\ forall i illust f,
       l !! i = Some (illust, f) ->
       exists order,
         pool st' !! f
         = Some (Download (download_params (download_kwargs c) (order, illust))).
Proof.
  intros Hrun.
  destruct (fetch_and_download_ends E c fuel st st' _ Hrun)
    as (its & n & Hp & Hfu & _ & _ & _ & _ & _ & ->).
  rewrite Hfu, Hp, pairs_from_futures, pairs_from_length, length_app, length_map.
  split; [done|]. split; [done|].
  intros i illust f Hi. unfold pairs_from in Hi.
  rewrite list_lookup_imap in Hi.
  destruct (its !! i) as [[order x]|] eqn:Hx; [|done].
  simpl in Hi. injection Hi as <- <-. exists order.
  rewrite lookup_app_r by lia.
  replace (length (pool st) + i - length (pool st)) with i by lia.
  by rewrite list_lookup_fmap, Hx.
Qed.

End Ends.

(** ** Passes that fail early or part-way *)

Section Failing.
Context {Item Q Key QS : Type} `{!QuerySet Item Q Key QS}.

Lemma pass_early_failure (E : env Item QS) (c : config Item Q Key) (dk : loc)
  (st : state Item) (e : exn Item) :
  early_failure E c (fetch_calls st) = Some e ->
  pass E c dk st = (Raise e, called st).
Proof.
  unfold early_failure. rewrite attempt_run.
  destruct (call_result E _ _ _ _) as [qs|e']; [|by intros [= <-]].
  destruct (selected c qs) as [|oi rest|e']; [done | done |]. by intros [= <-].
Qed.

Lemma after_early_failures (E : env Item QS) (c : config Item Q Key) (dk : loc)
  (errs : nat -> exn Item) (k : nat) (st : state Item) :
  (forall i, i < k -> early_failure E c (fetch_calls st + i) = Some (errs i)) ->
  after_failures (pass E c dk) k st
  = Some (State (fetch_calls st + k) (submit_calls st) (pool st) (heap st)
            (log st) (futures st)).
Proof.
  revert errs st. induction k as [|k IH]; intros errs st Hf; simpl.
  - rewrite Nat.add_0_r. by destruct st.
  - rewrite (pass_early_failure _ _ _ _ (errs 0)).
    2:{ rewrite <- (Nat.add_0_r (fetch_calls st)). apply Hf. lia. }
    rewrite (IH (fun i => errs (S i))).
    + simpl. do 2 f_equal. lia.
    + intros i Hi. simpl.
      replace (S (fetch_calls st + i)) with (fetch_calls st + S i) by lia.
      apply Hf. lia.
Qed.

(** X8. Passes that fail before the loop reaches an item, in the fetch
    call, in a stage of the pipeline (a negative limit, say) or at the
    start of the enumeration, are retried like any other, each with a new
    invocation of the fetch function; when the bound is reached the last
    exception is raised with [fetch_call] set to the fetch call, and
    nothing was submitted or logged on the way. *)
Theorem X8_early_failures_leave_nothing (E : env Item QS)
  (c : config Item Q Key) (m : Z) (n : nat) (errs : nat -> exn Item)
  (st : state Item) :
  max_tries c = Some m ->
  Z.of_nat (S n) = Z.max m 1 ->
  (forall i, i <= n -> early_failure E c (fetch_calls st + i) = Some (errs i)) ->
  forall extra, exists e',
    fetch_and_download E c (S n + extra) st
    = Some (Raise e',
            State (fetch_calls st + S n) (submit_calls st) (pool st)
              (heap st ++ [download_kwargs c]) (log st) [])
    /\ fetch_call e' = Some (fetch_of c)
    /\ exn_what e' = exn_what (errs n).
Proof.
  intros Hm Hn Hf extra. exists (set_fetch_call (errs n) (fetch_of c)).
  split; [|done].
  replace (S n + extra) with (n + S extra) by lia.
  rewrite (fetch_and_download_skips E c n st _
             (after_early_failures E c _ errs n (start c st)
                (fun i Hi => Hf i (Nat.lt_le_incl _ _ Hi)))).
  2:{ intros i Hi. rewrite Hm. apply may_retry_below. lia. }
  set (stk := State _ _ _ _ _ _).
  rewrite (retry_loop_raises E c _ _ _ stk (called stk) (errs n)).
  - unfold called, stk. simpl. do 3 f_equal. lia.
  - apply pass_early_failure. simpl. apply Hf. lia.
  - rewrite Hm. apply may_retry_reached. lia.
Qed.

Lemma for_each_outcome (E : env Item QS) (dk : loc) (cb : option (callback Item))
  (s : stream Item (nat * Item)) (st : state Item) :
  dk < length (heap st) ->
  exists st',
    for_each s (loop_body E dk (option_map safe_callback cb)) st
    = (match snd (loop_outcome E (submit_calls st) s) with
       | None => Ok tt
       | Some e => Raise e
       end, st')
    /\ grows dk (fst (loop_outcome E (submit_calls st) s)) st st'.
Proof.
  revert st. induction s as [|oi rest IH|e]; intros st Hdk; simpl.
  - exists st. split; [done | apply grows_refl].
  - unfold bind.
    destruct (loop_body_grows E dk cb oi st)
      as [st1 [(Hf & Hb & Hg & Hsc & _) | (e & Hf & Hb & Hg & _)]];
      rewrite Hb, Hf.
    + destruct (grows_heap _ _ _ _ Hdk Hg) as [_ Hdk1].
      destruct (IH st1 Hdk1) as (st' & Hrun & Hg').
      rewrite Hsc in Hrun, Hg'.
      destruct (loop_outcome E (S (submit_calls st)) rest) as [its r].
      exists st'. split; [done|]. simpl in *.
      change (oi :: its) with ([oi] ++ its). by eapply grows_trans.
    + exists st1. by split.
  - exists st. split; [done | apply grows_refl].
Qed.

(** X9. When the last pass the bound allows breaks part-way, in the
    enumeration or in a submission, the call raises that exception with
    [fetch_call] set to the fetch call, and no job is withdrawn: the
    executor holds what the failed passes before it left, followed by
    the jobs of the items this pass enumerated before the break, in
    order. *)
Theorem X9_jobs_before_a_break_stay (E : env Item QS) (c : config Item Q Key)
  (k : nat) (st stk : state Item) (qs : QS) (its : list (nat * Item))
  (e : exn Item) :
  after_failures (pass E c (length (heap st))) k (start c st) = Some stk ->
  (forall i, i < k -> may_retry (max_tries c) (1 + i) = true) ->
  call_result E (fetch_func c) (default [] (args c)) (default [] (kwargs c))
    (fetch_calls stk) = Ok qs ->
  loop_outcome E (submit_calls stk) (selected c qs) = (its, Some e) ->
  may_retry (max_tries c) (1 + k) = false ->
  forall extra, exists e' st' left,
    fetch_and_download E c (k + 1 + extra) st = Some (Raise e', st')
    /\ fetch_call e' = Some (fetch_of c)
    /\ exn_what e' = exn_what e
    /\ pool stk = pool st
         ++ map (fun oi => Download (download_params (download_kwargs c) oi)) left
    /\ pool st' = pool stk
         ++ map (fun oi => Download (download_params (download_kwargs c) oi)) its.
Proof.
  intros Hk Hretry Hq Ho Hm extra.
  destruct (after_failures_start E c k st stk Hk) as (Hdk & Hd & _ & left & _ & Hp).
  destruct (for_each_outcome E (length (heap st)) (submit_download_callback c)
              (selected c qs) (called stk) Hdk) as (st' & Hrun & Hg).
  simpl in Hrun, Hg. rewrite Ho in Hrun, Hg. simpl in Hrun, Hg.
  exists (set_fetch_call e (fetch_of c)), st', left.
  split; [|split; [done|split; [done|split; [done|]]]].
  - replace (k + 1 + extra) with (k + S extra) by lia.
    rewrite (fetch_and_download_skips E c k st stk Hk Hretry).
    apply retry_loop_raises; [|done].
    rewrite attempt_run. rewrite Hq. exact Hrun.
  - destruct Hg as (Hp' & _). simpl in Hp'. by rewrite Hd in Hp'.
Qed.

End Failing.

(** ** The order numbers *)

Lemma enumerate_numbers {Item : Type} (s : stream Item Item) (n : nat)
  (items : list (nat * Item)) :
  stream_items (LazyQS.enumerate n s) = Some items ->
  forall i oi, items !! i = Some oi -> fst oi = n + i.
Proof.
  revert n items. induction s as [|a rest IH|e]; intros n items Hs; simpl in Hs.
  - injection Hs as <-. intros i oi Hi. by destruct i.
  - destruct (stream_items (LazyQS.enumerate (S n) rest)) as [l|] eqn:Hr; [|done].
    injection Hs as <-. intros [|i] oi Hi; simpl in Hi.
    + injection Hi as <-. simpl. lia.
    + rewrite (IH (S n) l Hr i oi Hi). lia.
  - done.
Qed.

(** X10. When the caller supplies no naming hint, the jobs of the pass
    that completes, the first or a later one, carry the order numbers
    1, 2, 3, ... in the order of submission: the [i]-th job of that pass
    has [addition_naming_info = {'order': i}]. *)
Theorem X10_default_hints_count_from_one {Item : Type}
  (E : env Item (stream Item Item))
  (c : config Item (Item -> bool) (Item -> Z)) (k : nat) (st stk : state Item)
  (qs : stream Item Item) (items : list (nat * Item)) :
  naming_hint_supplied (download_kwargs c) = false ->
  after_failures (pass E c (length (heap st))) k (start c st) = Some stk ->
  (forall i, i < k -> may_retry (max_tries c) (1 + i) = true) ->
  call_result E (fetch_func c) (default [] (args c)) (default [] (kwargs c))
    (fetch_calls stk) = Ok qs ->
  stream_items (selected c qs) = Some items ->
  (forall j, j < length items -> submit_fault E (submit_calls stk + j) = None) ->
  forall extra, exists l st',
    fetch_and_download E c (k + 1 + extra) st = Some (Ok l, st')
    /\ length (pool st') = length (pool stk) + length items
    /\ forall i, i < length items ->
         exists p,
           pool st' !! (length (pool stk) + i) = Some (Download p)
           /\ p !! "addition_naming_info"%string
              = Some (VDict [("order"%string, VInt (Z.of_nat (1 + i)))]).
Proof.
  intros Hhint Hk Hretry Hq Hs Hno extra.
  destruct (after_failures_start E c k st stk Hk) as (Hdk & Hd & _).
  destruct (attempt_ok E c (length (heap st)) stk qs items Hdk Hq Hs Hno)
    as (st' & Hrun & Hg & _).
  exists (futures st'), st'. split.
  { replace (k + 1 + extra) with (k + S extra) by lia.
    rewrite (fetch_and_download_skips E c k st stk Hk Hretry).
    by rewrite (retry_loop_returns _ _ _ _ _ _ _ Hrun). }
  destruct Hg as (Hp & _). rewrite Hd in Hp. simpl in Hp.
  split; [by rewrite Hp, length_app, length_map|].
  intros i Hi.
  destruct (lookup_lt_is_Some_2 items i Hi) as [oi Hoi].
  exists (download_params (download_kwargs c) oi). split.
  - rewrite Hp, lookup_app_r by lia.
    replace (length (pool stk) + i - length (pool stk)) with i by lia.
    by rewrite list_lookup_fmap, Hoi.
  - destruct (download_params_lookup (download_kwargs c) oi) as (_ & _ & Hdp & _).
    rewrite (Hdp Hhint). do 6 f_equal.
    unfold selected in Hs. destruct (pipeline c qs) as [qs'|e]; [|done].
    exact (enumerate_numbers qs' 1 items Hs i oi Hoi).
Qed.

(** ** More on [FunctionCall.__str__] *)

(** X11. The separator between positional and keyword arguments hangs
    on the text, not on the arguments: a single positional argument
    whose [repr] is empty leaves no trace, and the keyword arguments
    follow the opening parenthesis at once. *)
Theorem X11_blank_repr_is_left_out {V : Type} (repr : value V -> string)
  (f : callable) (v : value V) (kv : string * value V)
  (kvs : list (string * value V)) :
  repr v = ""%string ->
  FunctionCall.__str__ repr (FunctionCall.Build f [v] (kv :: kvs))
  = (FunctionCall.function_name f ++ "("
     ++ FunctionCall.join (map (FunctionCall.kwarg_str repr) (kv :: kvs))
     ++ ")")%string.
Proof.
  intros Hv. unfold FunctionCall.__str__, FunctionCall.parameter_str. simpl.
  rewrite Hv. simpl.
  change (FunctionCall.join (FunctionCall.kwarg_str repr kv
                             :: map (FunctionCall.kwarg_str repr) kvs))
    with (FunctionCall.join (map (FunctionCall.kwarg_str repr) (kv :: kvs))).
  simpl map. by rewrite (join_truthy _ _ (kwarg_str_truthy repr kv)).
Qed.

(** ** The executor wrappers *)

(** X12. Leaving a [with] block over a PixieQueen asks the executor to
    shut down and wait, once, after all that the block asked for, whether
    the block ends or raises; an exception that leaves the block is
    raised again, not swallowed. *)
Theorem X12_with_block_shuts_down_once {Item : Type} (q : Queen.t Item)
  (body : Queen.t Item -> res Item unit * Queen.t Item) :
  Queen.with_block q body
  = (match fst (body q) with Ok _ => Ok tt | Raise e => Raise e end,
     Queen.shutdown (snd (body q)) true)
  /\ Queen.requests (snd (Queen.with_block q body))
     = Queen.requests (snd (body q)) ++ [Queen.Shutdown true]
  /\ Queen.shutdowns (Queen.requests (snd (Queen.with_block q body)))
     = Queen.shutdowns (Queen.requests (snd (body q))) ++ [true].
Proof.
  unfold Queen.with_block, Queen.__enter__, Queen.__exit__.
  destruct (body q) as [[[]|e] q']; simpl;
    (split; [done|]; split; [done|]);
    unfold Queen.shutdowns; by rewrite flat_map_app.
Qed.

(** ** Concrete runs of the above *)

Lemma X1_witness :
  ex_is_Exception (Exn "SystemExit" None) = false
  /\ exists st1,
       pass ex_exiting (ex_config None) (length (heap ex_state)) st1
       = (Raise (Exn "SystemExit" None), State 1 0 [] [∅] [] []).
Proof.
  apply (X1_unbounded_raises_no_Exception ex_is_Exception ex_exiting
           (ex_config None) 3 ex_state (State 1 0 [] [∅] [] [])
           (Exn "SystemExit" None)).
  - reflexivity.
  - reflexivity.
Defined.

Lemma X2_witness :
  fetch_and_download ex_down (ex_config None) 4 ex_state = None.
Proof.
  refine (X2_unbounded_loops_while_fetch_fails ex_down (ex_config None)
            (fun _ => Exn "ConnectionError" None) ex_state _ _ 4).
  - reflexivity.
  - intros i. reflexivity.
Defined.

Lemma X3_witness :
  fetch_calls ex_state < fetch_calls (ex_end_of ex_breaking (ex_config (Some 2%Z)) 2)
  /\ (Z.of_nat (fetch_calls (ex_end_of ex_breaking (ex_config (Some 2%Z)) 2)
                - fetch_calls ex_state) <= Z.max 2 1)%Z.
Proof.
  apply (X3_fetch_invocations_bounded ex_breaking (ex_config (Some 2%Z)) 2%Z 2
           ex_state (ex_end_of ex_breaking (ex_config (Some 2%Z)) 2)
           (Ok [("A"%string, 0); ("A"%string, 1); ("B"%string, 2)])).
  - reflexivity.
  - vm_compute. reflexivity.
Defined.

Lemma X4_witness :
  fetch_and_download ex_down (with_max_tries (Some 0%Z) (ex_config None)) 3 ex_state
  = fetch_and_download ex_down (with_max_tries (Some 1%Z) (ex_config None)) 3 ex_state.
Proof.
  apply (X4_bound_below_one_is_one ex_down (ex_config None) 0%Z 3 ex_state).
  lia.
Defined.

Lemma X5_witness :
  map snd [("A"%string, 0); ("A"%string, 1); ("B"%string, 2)]
  = seq (length (pool ex_state)) 3
  /\ length (pool (ex_end_of ex_breaking (ex_config (Some 2%Z)) 2))
     = length (pool ex_state) + 3
  /\ forall i illust f,
       [("A"%string, 0); ("A"%string, 1); ("B"%string, 2)] !! i = Some (illust, f) ->
       exists order,
         pool (ex_end_of ex_breaking (ex_config (Some 2%Z)) 2) !! f
         = Some (Download (download_params ∅ (order, illust))).
Proof.
  apply (X5_pairs_hold_their_own_jobs ex_breaking (ex_config (Some 2%Z)) 2
           ex_state (ex_end_of ex_breaking (ex_config (Some 2%Z)) 2)
           [("A"%string, 0); ("A"%string, 1); ("B"%string, 2)]).
  vm_compute. reflexivity.
Defined.

Lemma X8_witness :
  exists e',
    fetch_and_download (ex_flaky 0 ["A"]%string) ex_negative_limit (2 + 0) ex_state
    = Some (Raise e', State (0 + 2) 0 [] ([] ++ [∅]) [] [])
    /\ fetch_call e' = Some (fetch_of ex_negative_limit)
    /\ exn_what e' = "InvalidArgument"%string.
Proof.
  refine (X8_early_failures_leave_nothing (ex_flaky 0 ["A"]%string)
            ex_negative_limit 2%Z 1 (fun _ => Exn "InvalidArgument" None)
            ex_state _ _ _ 0).
  - reflexivity.
  - reflexivity.
  - intros [|[|i]] Hi; [reflexivity | reflexivity | lia].
Defined.

Lemma X9_witness :
  exists e' st' left,
    fetch_and_download ex_always_breaking (ex_config (Some 2%Z)) (1 + 1 + 0)
      ex_state = Some (Raise e', st')
    /\ fetch_call e' = Some (fetch_of (ex_config (Some 2%Z)))
    /\ exn_what e' = "ConnectionError"%string
    /\ pool ex_after_first_break
       = [] ++ map (fun oi => Download (download_params ∅ oi)) left
    /\ pool st'
       = pool ex_after_first_break
         ++ map (fun oi => Download (download_params ∅ oi)) [(1, "A"%string)].
Proof.
  refine (X9_jobs_before_a_break_stay ex_always_breaking (ex_config (Some 2%Z)) 1
            ex_state ex_after_first_break
            (SYield "A"%string (SRaise (Exn "ConnectionError" None)))
            [(1, "A"%string)] (Exn "ConnectionError" None) _ _ _ _ _ 0).
  - reflexivity.
  - intros [|i] Hi; [reflexivity | lia].
  - reflexivity.
  - reflexivity.
  - reflexivity.
Defined.

(** Both passes left their job for [A]. *)
Example two_broken_passes_leave_two_jobs :
  option_map (fun r => length (pool (snd r)))
    (fetch_and_download ex_always_breaking (ex_config (Some 2%Z)) 2 ex_state)
  = Some 2.
Proof. vm_compute. reflexivity. Qed.

Lemma X10_witness :
  exists l st',
    fetch_and_download ex_breaking (ex_config (Some 2%Z)) (1 + 1 + 0) ex_state
    = Some (Ok l, st')
    /\ length (pool st') = length (pool ex_after_break) + 2
    /\ forall i, i < 2 ->
         exists p,
           pool st' !! (length (pool ex_after_break) + i) = Some (Download p)
           /\ p !! "addition_naming_info"%string
              = Some (VDict [("order"%string, VInt (Z.of_nat (1 + i)))]).
Proof.
  refine (X10_default_hints_count_from_one ex_breaking (ex_config (Some 2%Z)) 1
            ex_state ex_after_break (stream_of_list ["A"; "B"]%string)
            [(1, "A"%string); (2, "B"%string)] _ _ _ _ _ _ 0).
  - reflexivity.
  - reflexivity.
  - intros [|i] Hi; [reflexivity | lia].
  - reflexivity.
  - reflexivity.
  - reflexivity.
Defined.

Lemma X11_witness :
  FunctionCall.__str__ ex_blank_repr
    (FunctionCall.Build ex_fetch [VIllust "x"%string] [("tag"%string, VStr "cat")])
  = "fetch(tag='cat')"%string.
Proof.
  apply (X11_blank_repr_is_left_out ex_blank_repr ex_fetch (VIllust "x"%string)
           ("tag"%string, VStr "cat") []).
  reflexivity.
Defined.

(** A block that submits a download and then fails: the download was
    handed over, the executor is shut down, the failure comes out. *)
Example failing_block_is_shut_down :
  Queen.with_block (Queen.__init__ None) ex_block
  = (Raise (Exn "ValueError" None),
     Queen.Build 5
       [Queen.Submit
          (Queen.Task (Callable (Some "download") "<function download>") true
             [VStr "illust"] []);
        Queen.Shutdown true]).
Proof. reflexivity. Qed.
